(** * ascend.ai: the client-side request/visualisation logic and the
      recommendation engine's ordering pipeline.

    The React client ([UserInputPage.js], [VisualPage.js]) is embedded from
    its source.  The Python engine behind [/api/recommend] is embedded from
    its specification.

    A JavaScript string is held as the bytes of its UTF-8 encoding. *)

From Stdlib Require Import ZArith QArith Bool List Ascii String Lia Permutation.
From stdpp Require Import base option list strings gmap.

Open Scope string_scope.
Open Scope Z_scope.

(** ** UserInputPage.js *)

Module UserInputPage.

(** The three string literals ['low'], ['medium'], ['high']. *)
Inductive RiskLevel := low | medium | high.

Definition riskLevel_string (r : RiskLevel) : string :=
  match r with low => "low" | medium => "medium" | high => "high" end.

(** [getRiskLevel]: two cascading [<] tests on the slider value. *)
Definition getRiskLevel (value : Z) : RiskLevel :=
  if value <? 33 then low
  else if value <? 67 then medium
  else high.

(** *** The form: [isFormValid] and [handleSubmit] *)

(** A string stands for its UTF-8 encoding.  [utf8] encodes a code point
    below U+10000. *)
Definition utf8 (n : N) : list ascii :=
  ascii_of_N <$>
    (if n <? 128 then [n]
     else if n <? 2048 then [192 + n / 64; 128 + n mod 64]
     else [224 + n / 4096; 128 + (n / 64) mod 64; 128 + n mod 64])%N.

(** The code points [String.prototype.trim] removes, the white space and
    the line terminators of ECMAScript: tab, line feed, vertical tab, form
    feed, carriage return, space, no-break space, the other space
    separators (U+1680, U+2000 to U+200A, U+202F, U+205F, U+3000), the line
    and paragraph separators U+2028 and U+2029, and U+FEFF. *)
Definition white_space_code_points : list N :=
  [9; 10; 11; 12; 13; 32; 160; 5760;
   8192; 8193; 8194; 8195; 8196; 8197; 8198; 8199; 8200; 8201; 8202;
   8232; 8233; 8239; 8287; 12288; 65279]%N.

Definition white_space : list (list ascii) := utf8 <$> white_space_code_points.

(** [l] begins with the bytes [tok]. *)
Fixpoint starts_with (tok l : list ascii) : bool :=
  match tok, l with
  | [], _ => true
  | a :: tok', b :: l' => Ascii.eqb a b && starts_with tok' l'
  | _ :: _, [] => false
  end.

(** [l] without the first of [toks] it begins with, if any. *)
Fixpoint strip_token (toks : list (list ascii)) (l : list ascii)
  : option (list ascii) :=
  match toks with
  | [] => None
  | tok :: rest =>
      if starts_with tok l then Some (drop (length tok) l) else strip_token rest l
  end.

(** [l] without the [toks] it begins with; [fuel] bounds the number of
    rounds, and the length of [l] is enough. *)
Fixpoint trim_leading (toks : list (list ascii)) (fuel : nat) (l : list ascii)
  : list ascii :=
  match fuel with
  | O => l
  | S fuel' =>
      match strip_token toks l with
      | Some l' => trim_leading toks fuel' l'
      | None => l
      end
  end.

Definition trimStart (s : string) : string :=
  let l := list_ascii_of_string s in
  string_of_list_ascii (trim_leading white_space (length l) l).

Definition trimEnd (s : string) : string :=
  let l := reverse (list_ascii_of_string s) in
  string_of_list_ascii
    (reverse (trim_leading (reverse <$> white_space) (length l) l)).

Definition trim (s : string) : string := trimEnd (trimStart s).

(** The component state read by the handlers. *)
Record State := {
  currentSituation : string;
  futureGoals : string;
  riskSliderValue : Z
}.

(** The object handed to [onComplete]. *)
Module Query.
Record t := {
  currentSituation : string;
  futureGoals : string;
  riskLevel : RiskLevel
}.
End Query.

(** [currentSituation.trim() && futureGoals.trim()], as a truth value. *)
Definition isFormValid (st : State) : bool :=
  negb (String.eqb (trim (currentSituation st)) "")
  && negb (String.eqb (trim (futureGoals st)) "").

(** [handleSubmit]: the argument of the [onComplete] call, [None] when the
    handler returns without calling it. *)
Definition handleSubmit (st : State) : option Query.t :=
  if isFormValid st
  then Some {| Query.currentSituation := trim (currentSituation st);
               Query.futureGoals := trim (futureGoals st);
               Query.riskLevel := getRiskLevel (riskSliderValue st) |}
  else None.

End UserInputPage.

(** ** VisualPage.js *)

Module VisualPage.

(** *** JavaScript strings and values *)

(** [String.prototype.toLowerCase], on the ASCII letters; every other
    character code is kept. *)
Definition lower_ascii (c : ascii) : ascii :=
  let n := nat_of_ascii c in
  if ((65 <=? n) && (n <=? 90))%nat then ascii_of_nat (n + 32) else c.

Fixpoint toLowerCase (s : string) : string :=
  match s with
  | EmptyString => EmptyString
  | String c s' => String (lower_ascii c) (toLowerCase s')
  end.

(** [s.includes(k)]: [k] occurs in [s] at some offset. *)
Fixpoint includes (s k : string) : bool :=
  String.prefix k s ||
  match s with
  | EmptyString => false
  | String _ s' => includes s' k
  end.

(** The primitive values a profile or query field can hold. *)
Inductive JsValue :=
| JsUndefined
| JsNull
| JsBool (b : bool)
| JsNumber (n : Q)
| JsString (s : string).

(** An object reference as used with [?.]: absent, or a property table. *)
Inductive JsRef :=
| RefUndefined
| RefNull
| RefObject (fields : gmap string JsValue).

(** [Boolean(v)] *)
Definition truthy (v : JsValue) : bool :=
  match v with
  | JsUndefined | JsNull => false
  | JsBool b => b
  | JsNumber n => negb (Qeq_bool n 0)
  | JsString s => negb (String.eqb s "")
  end.

(** [a || b] *)
Definition js_or (a b : JsValue) : JsValue := if truthy a then a else b.

(** [o.k]: a TypeError on [null] and [undefined]. *)
Definition get_prop (o : JsRef) (k : string) : option JsValue :=
  match o with
  | RefObject fields => Some (default JsUndefined (fields !! k))
  | _ => None
  end.

(** [o?.k] *)
Definition opt_chain (o : JsRef) (k : string) : JsValue :=
  match o with
  | RefObject fields => default JsUndefined (fields !! k)
  | _ => JsUndefined
  end.

(** *** generateResources *)

Record Resource := { title : string; url : string }.

(** [resourceMap], as [Object.entries] enumerates it: none of the keys is
    an array index, so the entries come in declaration order. *)
Definition resourceMap : list (string * list Resource) :=
  [ ("emergency",
     [ {| title := "Emergency Fund Calculator"; url := "https://www.nerdwallet.com/article/banking/emergency-fund-calculator" |};
       {| title := "How to Build Emergency Savings"; url := "https://www.investopedia.com/terms/e/emergency_fund.asp" |} ]);
    ("budget",
     [ {| title := "Create a Budget Guide"; url := "https://www.consumer.gov/articles/1002-making-budget" |};
       {| title := "50/30/20 Budget Rule"; url := "https://www.nerdwallet.com/article/finance/nerdwallet-budget-calculator" |} ]);
    ("401k",
     [ {| title := "401(k) Basics"; url := "https://www.investopedia.com/terms/1/401kplan.asp" |};
       {| title := "Maximize Your 401(k)"; url := "https://www.fidelity.com/viewpoints/retirement/how-much-to-save" |} ]);
    ("ira",
     [ {| title := "IRA Comparison Guide"; url := "https://www.irs.gov/retirement-plans/individual-retirement-arrangements-iras" |};
       {| title := "Roth vs Traditional IRA"; url := "https://www.investopedia.com/roth-vs-traditional-ira-5088005" |} ]);
    ("debt",
     [ {| title := "Debt Payoff Strategies"; url := "https://www.nerdwallet.com/article/finance/pay-off-debt" |};
       {| title := "Debt Avalanche vs Snowball"; url := "https://www.investopedia.com/articles/personal-finance/080716/debt-avalanche-vs-debt-snowball-which-best-you.asp" |} ]);
    ("credit",
     [ {| title := "Build Your Credit Score"; url := "https://www.experian.com/blogs/ask-experian/credit-education/improving-credit/improve-credit-score/" |};
       {| title := "Free Credit Report"; url := "https://www.annualcreditreport.com/" |} ]);
    ("invest",
     [ {| title := "Investing for Beginners"; url := "https://www.investopedia.com/articles/basics/06/invest1000.asp" |};
       {| title := "Index Fund Guide"; url := "https://www.bogleheads.org/wiki/Getting_started" |} ]);
    ("stock",
     [ {| title := "Stock Market Basics"; url := "https://www.investopedia.com/terms/s/stockmarket.asp" |};
       {| title := "How to Buy Stocks"; url := "https://www.nerdwallet.com/article/investing/how-to-buy-stocks" |} ]);
    ("save",
     [ {| title := "High-Yield Savings Accounts"; url := "https://www.bankrate.com/banking/savings/best-high-yield-interests-savings-accounts/" |};
       {| title := "Savings Strategies"; url := "https://www.consumerfinance.gov/consumer-tools/save-as-you-go/" |} ]);
    ("house",
     [ {| title := "First-Time Homebuyer Guide"; url := "https://www.hud.gov/topics/buying_a_home" |};
       {| title := "Mortgage Calculator"; url := "https://www.bankrate.com/calculators/mortgages/mortgage-calculator.aspx" |} ]);
    ("mortgage",
     [ {| title := "Mortgage Basics"; url := "https://www.consumerfinance.gov/owning-a-home/" |};
       {| title := "Compare Mortgage Rates"; url := "https://www.bankrate.com/mortgages/mortgage-rates/" |} ]);
    ("tax",
     [ {| title := "Tax Planning Strategies"; url := "https://www.irs.gov/individuals" |};
       {| title := "Tax Deductions Guide"; url := "https://www.investopedia.com/articles/tax/09/tax-deductions.asp" |} ]);
    ("insurance",
     [ {| title := "Insurance Basics"; url := "https://www.insurance.com/insurance-basics.aspx" |};
       {| title := "Life Insurance Guide"; url := "https://www.policygenius.com/life-insurance/" |} ]);
    ("retire",
     [ {| title := "Retirement Planning"; url := "https://www.ssa.gov/benefits/retirement/" |};
       {| title := "Retirement Calculator"; url := "https://www.bankrate.com/retirement/calculators/retirement-plan-calculator/" |} ]);
    ("loan",
     [ {| title := "Student Loan Options"; url := "https://studentaid.gov/" |};
       {| title := "Loan Refinancing"; url := "https://www.nerdwallet.com/refinancing-student-loans" |} ]) ].

Definition defaultResources : list Resource :=
  [ {| title := "Personal Finance Guide"; url := "https://www.investopedia.com/personal-finance-4427760" |};
    {| title := "Financial Planning Basics"; url := "https://www.nerdwallet.com/article/finance/financial-planning" |} ].

(** The [for ... of Object.entries(resourceMap)] loop with its early
    [return]. *)
Fixpoint firstMatch (name : string) (entries : list (string * list Resource))
  : option (list Resource) :=
  match entries with
  | [] => None
  | (keyword, resources) :: rest =>
      if includes name keyword then Some resources else firstMatch name rest
  end.

Definition generateResources (actionName actionId : string) : list Resource :=
  let name := toLowerCase actionName in
  match firstMatch name resourceMap with
  | Some resources => resources
  | None => defaultResources
  end.


(** *** transformRecommendations *)

(** One recommendation of the engine's JSON output; [None] is an absent
    (or [null]) property. *)
Record Recommendation := {
  action_id : string;
  name : string;
  description : option string;
  personalized_description : option string;
  prerequisites : option (list string)
}.

(** A visualization node. *)
Module Node.
Record t := {
  id : string;
  name : string;
  description : string;
  resources : list Resource;
  dependencies : list string
}.
End Node.

(** [Set]: the members in insertion order; [add] of a member is a no-op. *)
Definition Set_add (s : list string) (x : string) : list string :=
  if bool_decide (x ∈ s) then s else s ++ [x].

Definition new_Set (items : list string) : list string :=
  fold_left Set_add items [].

Definition Set_has (s : list string) (x : string) : bool :=
  bool_decide (x ∈ s).

(** [allRecs.find(r => r.name === prereqName)] *)
Definition findByName (allRecs : list Recommendation) (prereqName : string)
  : option Recommendation :=
  find (fun r => String.eqb (name r) prereqName) allRecs.

(** [Boolean] on [depRec ? depRec.action_id : null]: [null] and the empty
    string are falsy. *)
Definition truthyId (x : option string) : bool :=
  match x with
  | Some s => negb (String.eqb s "")
  | None => false
  end.

(** [.filter(Boolean)] *)
Fixpoint filterBoolean (l : list (option string)) : list string :=
  match l with
  | [] => []
  | Some s :: rest =>
      if truthyId (Some s) then s :: filterBoolean rest else filterBoolean rest
  | None :: rest => filterBoolean rest
  end.

(** [a || b] where [a] is a possibly absent string. *)
Definition str_or (a : option string) (b : option string) : option string :=
  if truthyId a then a else b.

Definition sequentialDeps (recs : list Recommendation) (index : nat) : list string :=
  if (0 <? index)%nat
  then match recs !! (index - 1)%nat with
       | Some prev => [action_id prev]
       | None => []   (* not reached: [index - 1] is in range inside [map] *)
       end
  else [].

Definition engineDeps (allRecs : list Recommendation) (rec : Recommendation)
  : list string :=
  filterBoolean
    ((fun prereqName =>
        match findByName allRecs prereqName with
        | Some depRec => Some (action_id depRec)
        | None => None
        end)
     <$> default [] (prerequisites rec)).

Definition stageIds (recs : list Recommendation) : list string :=
  new_Set (action_id <$> recs).

Definition relevantEngineDeps (recs allRecs : list Recommendation)
  (rec : Recommendation) : list string :=
  filter (fun id => Is_true (Set_has (stageIds recs) id)) (engineDeps allRecs rec).

Definition allDeps (recs allRecs : list Recommendation) (index : nat)
  (rec : Recommendation) : list string :=
  new_Set (sequentialDeps recs index ++ relevantEngineDeps recs allRecs rec).

Definition transformOne (recs allRecs : list Recommendation) (index : nat)
  (rec : Recommendation) : Node.t :=
  {| Node.id := action_id rec;
     Node.name := name rec;
     Node.description :=
       default "No description available"
         (str_or (str_or (description rec) (personalized_description rec))
                 (Some "No description available"));
     Node.resources := generateResources (name rec) (action_id rec);
     Node.dependencies := allDeps recs allRecs index rec |}.

Definition transformRecommendations (recs allRecs : list Recommendation)
  : list Node.t :=
  imap (transformOne recs allRecs) recs.

(** *** fetchRecommendations *)

Record EngineProfile := {
  age_range : JsValue;
  location : JsValue;
  property_value : JsValue;
  vehicle_value : JsValue;
  investments : JsValue;
  debt : JsValue;
  monthly_salary : JsValue;
  has_dependents : JsValue;
  employment_stability : Q
}.

Record EngineQuery := {
  risk_tolerance : JsValue;
  current_situation : JsValue;
  goal : JsValue
}.

Definition engineProfile (profileData : JsRef) : EngineProfile :=
  {| age_range := js_or (opt_chain profileData "age") (JsString "30-34");
     location := js_or (opt_chain profileData "location") (JsString "Unknown");
     property_value :=
       js_or (opt_chain profileData "propertyValue") (JsString "prefer_not_to_say");
     vehicle_value :=
       js_or (opt_chain profileData "vehicleValue") (JsString "prefer_not_to_say");
     investments :=
       js_or (opt_chain profileData "investments") (JsString "prefer_not_to_say");
     debt := js_or (opt_chain profileData "debt") (JsString "prefer_not_to_say");
     monthly_salary :=
       js_or (opt_chain profileData "salary") (JsString "prefer_not_to_say");
     has_dependents := js_or (opt_chain profileData "has_dependents") (JsBool false);
     employment_stability := 7 # 10 |}.

Definition engineQuery (queryData : JsRef) : EngineQuery :=
  {| risk_tolerance := js_or (opt_chain queryData "riskLevel") (JsString "medium");
     current_situation := js_or (opt_chain queryData "currentSituation") (JsString "");
     goal := js_or (opt_chain queryData "futureGoals") (JsString "") |}.

(** What the [try] block can throw before the request is sent. *)
Inductive Thrown :=
| UserNotAuthenticated
| EngineApiError (statusText : string).

(** The part of [fetchRecommendations] up to the [fetch] call: the body of
    the POST request, or the thrown error.  [currentUser] is
    [auth.currentUser], [None] when nobody is signed in. *)
Definition requestBody (currentUser : option string) (profileData queryData : JsRef)
  : Thrown + (EngineProfile * EngineQuery) :=
  match currentUser with
  | None => inl UserNotAuthenticated
  | Some _ => inr (engineProfile profileData, engineQuery queryData)
  end.

(** The parsed response; [None] is an absent list. *)
Record EngineOutput := {
  immediate : option (list Recommendation);
  short_term : option (list Recommendation);
  medium_term : option (list Recommendation);
  long_term : option (list Recommendation);
  extended_term : option (list Recommendation)
}.

Definition allRecsOf (engineOutput : EngineOutput) : list Recommendation :=
  default [] (immediate engineOutput) ++
  default [] (short_term engineOutput) ++
  default [] (medium_term engineOutput) ++
  default [] (long_term engineOutput) ++
  default [] (extended_term engineOutput).

Record TransformedRecommendations := {
  shortTerm : list Node.t;
  mediumTerm : list Node.t;
  longTerm : list Node.t
}.

Definition transformedRecommendations (engineOutput : EngineOutput)
  : TransformedRecommendations :=
  let allRecs := allRecsOf engineOutput in
  {| shortTerm := transformRecommendations (default [] (short_term engineOutput)) allRecs;
     mediumTerm := transformRecommendations (default [] (medium_term engineOutput)) allRecs;
     longTerm := transformRecommendations (default [] (long_term engineOutput)) allRecs |}.

(** What [fetch] resolves to: the status and the parsed body. *)
Record Response := {
  ok : bool;
  statusText : string;
  json : EngineOutput
}.

(** The [try] block of [fetchRecommendations], with the engine API as a
    function from the request body to its response: the value handed to
    [setRecommendations], or the error the [catch] block reports. *)
Definition fetchRecommendations (currentUser : option string)
  (engine_api : EngineProfile * EngineQuery -> Response)
  (profileData queryData : JsRef) : Thrown + TransformedRecommendations :=
  match requestBody currentUser profileData queryData with
  | inl thrown => inl thrown
  | inr body =>
      let response := engine_api body in
      if ok response
      then inr (transformedRecommendations (json response))
      else inl (EngineApiError (statusText response))
  end.

(** *** NodeGraph: the vertical layout *)

Record Position := {
  x : Z;
  y : Z;
  width : Z;
  height : Z
}.

(** [calculatePositions]: one rectangle per node, 80 apart, odd rows 40 to
    the right. *)
Definition calculatePositions (nodes : list Node.t) : list Position :=
  let startY := 20 in
  let ySpacing := 80 in
  let xPadding := 20 in
  let nodeHeight := 50 in
  let nodeWidth := 280 in
  imap (fun (index : nat) (node : Node.t) =>
          let xOffset := if Z.of_nat index mod 2 =? 0 then 0 else 40 in
          {| x := xPadding + xOffset;
             y := startY + Z.of_nat index * ySpacing;
             width := nodeWidth;
             height := nodeHeight |})
       nodes.

(** [Math.max(...values)] of a non-empty list, given as head and tail. *)
Definition Math_max (first : Z) (others : list Z) : Z :=
  fold_left Z.max others first.

Definition maxHeight (nodePositions : list Position) : Z :=
  match nodePositions with
  | [] => 200
  | p :: ps => Math_max (y p) (y <$> ps) + 150
  end.

Definition maxWidth (nodePositions : list Position) : Z :=
  match nodePositions with
  | [] => 800
  | p :: ps => Math_max (x p + width p) ((fun q => x q + width q) <$> ps) + 50
  end.

(** *** Connections *)

(** [nodes.findIndex(n => n.id === nodeId)], -1 when no node matches. *)
Fixpoint findIndex (nodes : list Node.t) (nodeId : string) : Z :=
  match nodes with
  | [] => -1
  | n :: rest =>
      if String.eqb (Node.id n) nodeId then 0
      else let index := findIndex rest nodeId in
           if index <? 0 then -1 else index + 1
  end.

(** [getNodePosition]: [None] is [null] or the [undefined] of a read past
    the end of [positions]. *)
Definition getNodePosition (nodes : list Node.t) (positions : list Position)
  (nodeId : string) : option Position :=
  let index := findIndex nodes nodeId in
  if 0 <=? index then positions !! Z.to_nat index else None.

(** The numbers of one rendered [path]: its key and the points of the curve
    [M fromX fromY C fromX midY, toX midY, toX toY]. *)
Record Curve := {
  key : string;
  fromX : Q;
  fromY : Q;
  toX : Q;
  toY : Q;
  midY : Q
}.

(** The element rendered for the dependency [depId] of the node at [index],
    [None] for [null]. *)
Definition connection (nodes : list Node.t) (positions : list Position)
  (index : nat) (node : Node.t) (depId : string) : option Curve :=
  match getNodePosition nodes positions depId, positions !! index with
  | Some fromPos, Some toPos =>
      let fromX := (inject_Z (x fromPos) + inject_Z (width fromPos) / 2)%Q in
      let fromY := (inject_Z (y fromPos) + inject_Z (height fromPos))%Q in
      let toX := (inject_Z (x toPos) + inject_Z (width toPos) / 2)%Q in
      let toY := inject_Z (y toPos) in
      Some {| key := String.append depId (String.append "-" (Node.id node));
              fromX := fromX; fromY := fromY; toX := toX; toY := toY;
              midY := ((fromY + toY) / 2)%Q |}
  | _, _ => None
  end.

Definition Connections (nodes : list Node.t) (positions : list Position)
  : list (list (option Curve)) :=
  imap (fun index node => connection nodes positions index node <$> Node.dependencies node)
       nodes.

(** *** StageSection *)

(** [handleNodeExpand]: the next [expandedNodes]. *)
Definition handleNodeExpand (prev : list string) (nodeId : string) : list string :=
  if bool_decide (nodeId ∈ prev)
  then filter (fun id => id <> nodeId) prev
  else prev ++ [nodeId].

(** *** VisualPage: updateProfile *)

(** The own properties copied by [{ ...prev }]. *)
Definition spread (prev : JsRef) : gmap string JsValue :=
  match prev with
  | RefObject fields => fields
  | _ => ∅
  end.

(** [updateProfile]: the new profile, which is also the one refetched
    with. *)
Definition updateProfile (prev : JsRef) (field : string) (value : JsValue) : JsRef :=
  RefObject (<[field := value]> (spread prev)).

(** The values offered by the four toggles of the profile bar. *)
Definition profileOptions : list (string * list string) :=
  [ ("age", ["18–24"; "25–29"; "30–34"; "35–44"; "45–54"; "55–64"; "65+"]);
    ("salary", ["<$1k"; "$1k–$2k"; "$2k–$3k"; "$3k–$5k"; "$5k–$7k"; "$7k+"]);
    ("debt", ["$0"; "<$5k"; "$5k–$15k"; "$15k–$30k"; "$30k–$75k"; "$75k–$150k";
              "$150k+"]);
    ("investments", ["$0"; "<$5k"; "$5k–$15k"; "$15k–$30k"; "$30k–$60k";
                     "$60k–$100k"; "$100k–$250k"]) ].

End VisualPage.

(** ** The recommendation engine behind [/api/recommend] *)

Module Engine.

(** *** Data model *)

Inductive Horizon := ShortTerm | MediumTerm | LongTerm | ExtendedTerm.

Inductive RiskLevel := Low | Medium | High.

(** Modelled from the spec: the catalog entry of the engine's data model
    (engine/models, not among the sources). *)
Record Action := {
  id : string;
  name : string;
  category : string;
  risk_level : RiskLevel;
  base_priority : Q;
  effort : Q;
  complexity : Q;
  prerequisites : list string;
  horizon : Horizon;
  template : option string
}.

(** Modelled from the spec: the eight-dimension score breakdown. *)
Record ScoreBreakdown := {
  base_priority_score : Q;
  risk_alignment : Q;
  goal_alignment : Q;
  profile_fit : Q;
  urgency : Q;
  impact_potential : Q;
  feasibility : Q;
  priority_area_match : Q
}.

(** Modelled from the spec: the eight scoring weights ([ScoringWeights] of
    engine/models; the README names seven of its fields). *)
Record ScoringWeights := {
  base_priority_weight : Q;
  risk_tolerance_weight : Q;
  goal_alignment_weight : Q;
  profile_fit_weight : Q;
  urgency_weight : Q;
  impact_weight : Q;
  feasibility_weight : Q;
  priority_area_weight : Q
}.

Record ScoredAction := {
  action : Action;
  breakdown : ScoreBreakdown;
  total : Q
}.

Definition Edge : Type := string * string.

(** Modelled from the spec: nodes are the scored candidates, an edge
    [(p, d)] runs from the prerequisite [p] to the dependent [d]. *)
Record DependencyGraph := {
  nodes : list ScoredAction;
  edges : list Edge
}.

Definition node_id (a : ScoredAction) : string := id (action a).

(** *** Multi-Factor Scorer *)

Definition weight_sum (w : ScoringWeights) : Q :=
  (base_priority_weight w + risk_tolerance_weight w + goal_alignment_weight w
   + profile_fit_weight w + urgency_weight w + impact_weight w
   + feasibility_weight w + priority_area_weight w)%Q.

(** Modelled from the spec: Total = sum of weight_i * subscore_i. *)
Definition weighted_total (w : ScoringWeights) (b : ScoreBreakdown) : Q :=
  (base_priority_weight w * base_priority_score b
   + risk_tolerance_weight w * risk_alignment b
   + goal_alignment_weight w * goal_alignment b
   + profile_fit_weight w * profile_fit b
   + urgency_weight w * urgency b
   + impact_weight w * impact_potential b
   + feasibility_weight w * feasibility b
   + priority_area_weight w * priority_area_match b)%Q.

(** *** DAG Builder: edges *)

Definition add_edge (es : list Edge) (e : Edge) : list Edge :=
  if bool_decide (e ∈ es) then es else es ++ [e].

(** The candidate a declared prerequisite name stands for, if present. *)
Definition resolve_prerequisite (cands : list ScoredAction) (p : string)
  : option string :=
  match find (fun c => String.eqb (name (action c)) p) cands with
  | Some c => Some (node_id c)
  | None => None
  end.

Fixpoint prerequisite_edges (cands : list ScoredAction) (d : string)
  (ps : list string) : list Edge :=
  match ps with
  | [] => []
  | p :: rest =>
      match resolve_prerequisite cands p with
      | Some u => (u, d) :: prerequisite_edges cands d rest
      | None => prerequisite_edges cands d rest
      end
  end.

(** Modelled from the spec: for every declared prerequisite name on an
    action, add the edge prerequisite -> action if the prerequisite is in
    the candidate set, otherwise drop it (dag_builder.py, not among the
    sources). *)
Definition build_graph (cands : list ScoredAction) : DependencyGraph :=
  {| nodes := cands;
     edges :=
       fold_left add_edge
         (flat_map (fun a => prerequisite_edges cands (node_id a)
                               (prerequisites (action a))) cands)
         [] |}.

(** *** DAG Builder: cycle detection *)

Inductive Outcome :=
| FoundCycle (cycle : list Edge)
| NoCycle (visited : list string).

Definition successors (es : list Edge) (v : string) : list string :=
  map snd (List.filter (fun e => String.eqb (fst e) v) es).

(** The edges along a recursion stack (most recent call first): each entry
    was reached from the one below it. *)
Fixpoint stack_edges (stack : list string) : list Edge :=
  match stack with
  | a :: ((b :: _) as below) => (b, a) :: stack_edges below
  | _ => []
  end.

(** The top of the stack down to, and including, the entry [v]. *)
Fixpoint take_through (v : string) (stack : list string) : list string :=
  match stack with
  | [] => []
  | a :: below => if String.eqb a v then [a] else a :: take_through v below
  end.

(** The cycle closed by reaching [v] again while it is on the stack. *)
Definition cycle_through (stack : list string) (v : string) : list Edge :=
  stack_edges (v :: take_through v stack).

(** Visit the list [ws] in turn, threading the visited set, and stop at
    the first cycle. *)
Fixpoint dfs_each (visit : list string -> string -> option Outcome)
  (ws : list string) (visited : list string) : option Outcome :=
  match ws with
  | [] => Some (NoCycle visited)
  | w :: rest =>
      match visit visited w with
      | Some (NoCycle visited') => dfs_each visit rest visited'
      | r => r
      end
  end.

(** Modelled from the spec: depth-first traversal tracking the recursion
    stack.  [depth] bounds the recursion depth; [None] means the bound was
    hit.  A node is added to [visited] when its successors are done. *)
Fixpoint dfs_visit (depth : nat) (es : list Edge) (stack visited : list string)
  (v : string) : option Outcome :=
  match depth with
  | O => None
  | S depth' =>
      if bool_decide (v ∈ stack) then Some (FoundCycle (cycle_through stack v))
      else if bool_decide (v ∈ visited) then Some (NoCycle visited)
      else
        match dfs_each (dfs_visit depth' es (v :: stack)) (successors es v) visited with
        | Some (NoCycle visited') => Some (NoCycle (v :: visited'))
        | r => r
        end
  end.

(** Every vertex a traversal can reach: the nodes and the edge targets. *)
Definition vertices (g : DependencyGraph) : list string :=
  map node_id (nodes g) ++ map snd (edges g).

Definition find_cycle (g : DependencyGraph) : option Outcome :=
  dfs_each (dfs_visit (S (length (vertices g))) (edges g) [])
    (map node_id (nodes g)) [].

(** *** DAG Builder: cycle resolution *)

Definition score_of (ns : list ScoredAction) (v : string) : Q :=
  match find (fun a => String.eqb (node_id a) v) ns with
  | Some a => total a
  | None => 0
  end.

(** The edge of the cycle whose head node has the lowest total score; of
    several such edges, the first in the cycle. *)
Fixpoint weakest_edge (score : string -> Q) (cycle : list Edge) : option Edge :=
  match cycle with
  | [] => None
  | e :: rest =>
      match weakest_edge score rest with
      | None => Some e
      | Some m => if Qle_bool (score (snd e)) (score (snd m)) then Some e else Some m
      end
  end.

Fixpoint remove_edge (e : Edge) (es : list Edge) : list Edge :=
  match es with
  | [] => []
  | x :: rest => if bool_decide (x = e) then rest else x :: remove_edge e rest
  end.

Definition break_cycle (g : DependencyGraph) (cycle : list Edge) : DependencyGraph :=
  match weakest_edge (score_of (nodes g)) cycle with
  | Some e => {| nodes := nodes g; edges := remove_edge e (edges g) |}
  | None => g
  end.

(** Modelled from the spec: on cycle detection, break the cycle and retry
    detection.  [rounds] bounds the number of retries; [None] means a
    bound was hit. *)
Fixpoint resolve_loop (rounds : nat) (g : DependencyGraph) : option DependencyGraph :=
  match find_cycle g with
  | None => None
  | Some (NoCycle _) => Some g
  | Some (FoundCycle cycle) =>
      match rounds with
      | O => None
      | S rounds' => resolve_loop rounds' (break_cycle g cycle)
      end
  end.

Definition resolve_cycles (g : DependencyGraph) : option DependencyGraph :=
  resolve_loop (length (edges g)) g.

(** *** DAG Builder: topological order *)

(** Put [a] in front of the first entry that does not score higher. *)
Fixpoint insert_by_score (a : ScoredAction) (l : list ScoredAction)
  : list ScoredAction :=
  match l with
  | [] => [a]
  | b :: rest =>
      if Qle_bool (total b) (total a) then a :: b :: rest
      else b :: insert_by_score a rest
  end.

(** Descending total score; equal scores keep declaration order. *)
Definition by_priority (ns : list ScoredAction) : list ScoredAction :=
  fold_right insert_by_score [] ns.

(** No edge into [a] starts at a node that is still waiting. *)
Definition ready (es : list Edge) (waiting : list ScoredAction) (a : ScoredAction)
  : bool :=
  forallb
    (fun e => negb (String.eqb (snd e) (node_id a))
              || negb (bool_decide (fst e ∈ map node_id waiting)))
    es.

(** The first entry satisfying [p], and the list without it. *)
Fixpoint pick {A : Type} (p : A -> bool) (l : list A) : option (A * list A) :=
  match l with
  | [] => None
  | a :: rest =>
      if p a then Some (a, rest)
      else match pick p rest with
           | Some (x, rest') => Some (x, a :: rest')
           | None => None
           end
  end.

Fixpoint topo_loop (steps : nat) (es : list Edge) (waiting : list ScoredAction)
  : option (list ScoredAction) :=
  match waiting with
  | [] => Some []
  | _ :: _ =>
      match steps with
      | O => None
      | S steps' =>
          match pick (ready es waiting) waiting with
          | None => None                 (* every waiting node waits: a cycle *)
          | Some (a, rest) =>
              match topo_loop steps' es rest with
              | Some order => Some (a :: order)
              | None => None
              end
          end
      end
  end.

(** Modelled from the spec: a topological order in which nodes with no
    relative ordering constraint come by descending total score, then by
    declaration order; [None] when the sort cannot place every node. *)
Definition topological_sort (g : DependencyGraph) : option (list ScoredAction) :=
  topo_loop (length (nodes g)) (edges g) (by_priority (nodes g)).

(** *** Recommendation Grouper *)

Definition horizon_rank (h : Horizon) : nat :=
  match h with
  | ShortTerm => 0
  | MediumTerm => 1
  | LongTerm => 2
  | ExtendedTerm => 3
  end.

Definition in_horizon (h : Horizon) (a : ScoredAction) : bool :=
  Nat.eqb (horizon_rank (horizon (action a))) (horizon_rank h).

Definition same_category (a b : ScoredAction) : bool :=
  String.eqb (category (action a)) (category (action b)).

(** Drop the lowest-scoring excess of each category: an entry stays when
    fewer than [cap] entries of its category outrank it (a higher score,
    or the same score and an earlier place). *)
Fixpoint diversity_filter (cap : nat) (earlier l : list ScoredAction)
  : list ScoredAction :=
  match l with
  | [] => []
  | a :: rest =>
      let outranking :=
        (length (List.filter
                   (fun b => same_category b a && Qle_bool (total a) (total b))
                   earlier)
         + length (List.filter
                     (fun b => same_category b a && negb (Qle_bool (total b) (total a)))
                     rest))%nat in
      if (outranking <? cap)%nat
      then a :: diversity_filter cap (earlier ++ [a]) rest
      else diversity_filter cap (earlier ++ [a]) rest
  end.

(** Modelled from the spec: the topological order restricted to one
    horizon, then capped per category. *)
Definition bucket (cap : nat) (order : list ScoredAction) (h : Horizon)
  : list ScoredAction :=
  diversity_filter cap [] (List.filter (in_horizon h) order).

Record Recommendation := {
  short_bucket : list ScoredAction;
  medium_bucket : list ScoredAction;
  long_bucket : list ScoredAction;
  extended_bucket : list ScoredAction
}.

Definition group_by_horizon (cap : nat) (order : list ScoredAction) : Recommendation :=
  {| short_bucket := bucket cap order ShortTerm;
     medium_bucket := bucket cap order MediumTerm;
     long_bucket := bucket cap order LongTerm;
     extended_bucket := bucket cap order ExtendedTerm |}.

(** Modelled from the spec: the sequential path concatenates the bucket
    orders, short, medium, long, extended. *)
Definition sequential_actions (r : Recommendation) : list ScoredAction :=
  short_bucket r ++ medium_bucket r ++ long_bucket r ++ extended_bucket r.

Definition sequential_path_of (r : Recommendation) : list string :=
  map node_id (sequential_actions r).

(** *** Engine construction *)

Inductive ConfigError :=
| InvalidWeights
| DuplicateActionId (dup : string).

Fixpoint first_duplicate (ids : list string) : option string :=
  match ids with
  | [] => None
  | i :: rest => if bool_decide (i ∈ rest) then Some i else first_duplicate rest
  end.

(** Keep the prerequisites that name a catalog entry. *)
Definition declared_only (cat : list Action) (a : Action) : Action :=
  {| id := id a; name := name a; category := category a;
     risk_level := risk_level a; base_priority := base_priority a;
     effort := effort a; complexity := complexity a;
     prerequisites :=
       List.filter (fun p => existsb (fun b => String.eqb (name b) p) cat)
         (prerequisites a);
     horizon := horizon a; template := template a |}.

Definition undeclared (cat : list Action) (a : Action) : list string :=
  List.filter (fun p => negb (existsb (fun b => String.eqb (name b) p) cat))
    (prerequisites a).

Record AscendEngine := {
  catalog : list Action;
  warnings : list string;
  scoring_weights : ScoringWeights;
  max_per_category : nat
}.

(** Modelled from the spec: construction validates the weight set (it must
    sum to 1.0) and the catalog (no duplicate id; undeclared dependencies
    are dropped with a recorded warning). *)
Definition new_engine (cat : list Action) (w : ScoringWeights) (cap : nat)
  : ConfigError + AscendEngine :=
  if negb (Qeq_bool (weight_sum w) 1) then inl InvalidWeights
  else
    match first_duplicate (map id cat) with
    | Some dup => inl (DuplicateActionId dup)
    | None =>
        inr {| catalog := map (declared_only cat) cat;
               warnings := flat_map (undeclared cat) cat;
               scoring_weights := w;
               max_per_category := cap |}
    end.

(** *** Orchestrator *)

(** Modelled from the spec: the request-scoped components whose formulas
    the spec leaves open, each a pure function of its arguments. *)
Class Components (Profile Query Context : Type) := {
  normalize : Profile -> Query -> Context;
  generate_actions : Context -> list Action;
  subscores : Context -> Action -> ScoreBreakdown;
  estimate_timeline : Context -> ScoredAction -> string;
  personalize_description : Context -> ScoredAction -> string
}.

Record PersonalizedAction := {
  scored : ScoredAction;
  estimated_timeline : string;
  personalized_description : string
}.

(** Modelled from the spec: the result of one request, bucket by bucket.
    The response's further list [immediate] has no horizon affinity behind
    it in the data model and is left out. *)
Record EngineResult (Profile : Type) := {
  short_term : list PersonalizedAction;
  medium_term : list PersonalizedAction;
  long_term : list PersonalizedAction;
  extended_term : list PersonalizedAction;
  sequential_path : list string;
  profile_summary : Profile;
  processing_time_ms : Q
}.

Arguments short_term {Profile} _.
Arguments medium_term {Profile} _.
Arguments long_term {Profile} _.
Arguments extended_term {Profile} _.
Arguments sequential_path {Profile} _.
Arguments profile_summary {Profile} _.
Arguments processing_time_ms {Profile} _.

Section Orchestrator.

Context {Profile Query Context : Type} `{Components Profile Query Context}.

Definition score_action (w : ScoringWeights) (ctx : Context) (a : Action)
  : ScoredAction :=
  let b := subscores ctx a in
  {| action := a; breakdown := b; total := weighted_total w b |}.

Definition personalize (ctx : Context) (a : ScoredAction) : PersonalizedAction :=
  {| scored := a;
     estimated_timeline := estimate_timeline ctx a;
     personalized_description := personalize_description ctx a |}.

(** The per-request candidate set: catalog, then generated actions. *)
Definition candidates (e : AscendEngine) (ctx : Context) : list Action :=
  catalog e ++ generate_actions ctx.

(** The ordering half of the pipeline: score, build the graph, resolve
    cycles, sort. *)
Definition ordered (e : AscendEngine) (ctx : Context)
  : option (DependencyGraph * list ScoredAction) :=
  g ← resolve_cycles
        (build_graph (map (score_action (scoring_weights e) ctx) (candidates e ctx)));
  order ← topological_sort g;
  Some (g, order).

(** Modelled from the spec: [process(profile, query)], normalize to
    personalize in sequence, timing the full call.  [clock] holds the
    clock readings at entry and at exit. *)
Definition process (e : AscendEngine) (clock : Q * Q) (profile : Profile)
  (query : Query) : option (EngineResult Profile) :=
  let ctx := normalize profile query in
  '(_, order) ← ordered e ctx;
  let r := group_by_horizon (max_per_category e) order in
  Some {| short_term := map (personalize ctx) (short_bucket r);
          medium_term := map (personalize ctx) (medium_bucket r);
          long_term := map (personalize ctx) (long_bucket r);
          extended_term := map (personalize ctx) (extended_bucket r);
          sequential_path := sequential_path_of r;
          profile_summary := profile;
          processing_time_ms := (snd clock - fst clock)%Q |}.

End Orchestrator.

End Engine.

(** ** ScrollableCards.js *)

Module ScrollableCards.

(** [selectedIndex] and the [isScrolling] ref. *)
Record State := {
  selectedIndex : Z;
  isScrolling : bool
}.

Definition initial : State := {| selectedIndex := 0; isScrolling := false |}.

(** [handleWheel], for [cards.length = numberOfCards]; [deltaY] is the
    wheel delta of the event. *)
Definition handleWheel (numberOfCards : nat) (st : State) (deltaY : Q) : State :=
  if isScrolling st then st
  else
    let direction := if negb (Qle_bool deltaY 0) then 1 else -1 in
    let newIndex := selectedIndex st + direction in
    if (0 <=? newIndex) && (newIndex <? Z.of_nat numberOfCards)
    then {| selectedIndex := newIndex; isScrolling := true |}
    else st.

(** The callback of the 80 ms [setTimeout]. *)
Definition cooldownElapsed (st : State) : State :=
  {| selectedIndex := selectedIndex st; isScrolling := false |}.

Definition goToNextCard (numberOfCards : nat) (st : State) : State :=
  if selectedIndex st <? Z.of_nat numberOfCards - 1
  then {| selectedIndex := selectedIndex st + 1; isScrolling := isScrolling st |}
  else st.

Definition getZIndex (numberOfCards : nat) (st : State) (index : Z) : Z :=
  let distance := Z.abs (index - selectedIndex st) in
  Z.of_nat numberOfCards - distance.

Inductive Event :=
| Wheel (deltaY : Q)
| CooldownElapsed
| GoToNextCard.

Definition step (numberOfCards : nat) (st : State) (ev : Event) : State :=
  match ev with
  | Wheel deltaY => handleWheel numberOfCards st deltaY
  | CooldownElapsed => cooldownElapsed st
  | GoToNextCard => goToNextCard numberOfCards st
  end.

End ScrollableCards.

(** ** ProfileSetup.js *)

Module ProfileSetup.
Import VisualPage.

Record Question := {
  id : string;
  title : string;
  text_input : bool;
  options : list string
}.

Definition profileQuestions : list Question :=
  [ {| id := "age"; title := "Age"; text_input := false;
       options := ["Under 18"; "18–24"; "25–29"; "30–34"; "35–44"; "45–54";
                   "55–64"; "65–74"; "75+"] |};
    {| id := "location"; title := "Location"; text_input := true; options := [] |};
    {| id := "propertyValue"; title := "Property Value"; text_input := false;
       options := ["Prefer not to say"; "No property"; "<$100k"; "$100k–$200k";
                   "$200k–$350k"; "$350k–$500k"; "$500k–$750k"; "$750k–$1M";
                   "$1M–$1.5M"; "$1.5M+"] |};
    {| id := "vehicleValue"; title := "Vehicle Value"; text_input := false;
       options := ["Prefer not to say"; "No car"; "<$5k"; "$5k–$10k"; "$10k–$20k";
                   "$20k–$35k"; "$35k–$50k"; "$50k–$75k"; "$75k+"] |};
    {| id := "investments"; title := "Investments"; text_input := false;
       options := ["Prefer not to say"; "$0"; "<$5k"; "$5k–$15k"; "$15k–$30k";
                   "$30k–$60k"; "$60k–$100k"; "$100k–$250k"; "$250k–$500k";
                   "$500k+"] |};
    {| id := "debt"; title := "Debt"; text_input := false;
       options := ["Prefer not to say"; "$0"; "<$5k"; "$5k–$15k"; "$15k–$30k";
                   "$30k–$75k"; "$75k–$150k"; "$150k+"] |};
    {| id := "salary"; title := "Monthly Salary"; text_input := false;
       options := ["Prefer not to say"; "<$1k"; "$1k–$2k"; "$2k–$3k"; "$3k–$5k";
                   "$5k–$7k"; "$7k+"] |} ].

(** [profileData[k]] *)
Definition field (profileData : gmap string JsValue) (k : string) : JsValue :=
  default JsUndefined (profileData !! k).

(** [handleValueChange]: the next [profileData]. *)
Definition handleValueChange (prev : gmap string JsValue) (questionId : string)
  (value : string) : gmap string JsValue :=
  <[questionId := JsString value]> prev.

(** [profileQuestions.every(q => profileData[q.id])] *)
Definition allFilled (profileData : gmap string JsValue) : bool :=
  forallb (fun q => truthy (field profileData (id q))) profileQuestions.

Inductive Outcome :=
| Completed (profileData : gmap string JsValue)
| Alert (message : string).

(** [handleSubmit]: the [onComplete] call or the alert. *)
Definition handleSubmit (profileData : gmap string JsValue) : Outcome :=
  if allFilled profileData then Completed profileData
  else Alert "Please complete all fields before submitting.".

End ProfileSetup.

(** ** The city search of the profile forms (src/unnamed/part_002,
       part_001) *)

Module CitySearch.
Import VisualPage.

(** The fields of a geocoder entry are strings; [None] is an absent one. *)
Record Address := {
  city : option string;
  town : option string;
  village : option string;
  state : option string;
  country : option string
}.

Record Item := {
  type : option string;
  name : option string;
  display_name : option string;
  address : option Address
}.

Record Suggestion := {
  displayName : string;
  suggestion_city : option string;
  fullAddress : option string
}.

(** A possibly absent string inside a template literal. *)
Definition to_text (v : option string) : string := default "undefined" v.

(** [a === 'literal'] *)
Definition is_literal (a : option string) (literal : string) : bool :=
  match a with
  | Some s => String.eqb s literal
  | None => false
  end.

(** The predicate of [.filter]. *)
Definition names_a_place (item : Item) : bool :=
  match address item with
  | None => false
  | Some a =>
      is_literal (type item) "city" || is_literal (type item) "town"
      || is_literal (type item) "village"
      || truthyId (city a) || truthyId (town a) || truthyId (village a)
  end.

(** The function of [.map]; it runs on items that passed the filter, which
    have an address. *)
Definition suggest (item : Item) : option Suggestion :=
  match address item with
  | None => None
  | Some a =>
      let c := str_or (str_or (str_or (city a) (town a)) (village a)) (name item) in
      let s := str_or (state a) (Some "") in
      let k := str_or (country a) (Some "") in
      Some {| displayName :=
                String.append (to_text c)
                  (String.append
                     (if truthyId s then String.append ", " (to_text s) else "")
                     (if truthyId k then String.append ", " (to_text k) else ""));
              suggestion_city := c;
              fullAddress := display_name item |}
  end.

(** [.slice(0, 5)] *)
Definition slice5 {A : Type} (l : list A) : list A := take 5 l.

(** The UTF-16 code units a character adds to [.length], by the bytes of
    its UTF-8 encoding: one at its first byte, two when that byte opens a
    four-byte encoding (a surrogate pair), none at a continuation byte. *)
Definition code_units (c : ascii) : nat :=
  let n := nat_of_ascii c in
  if (n <? 128)%nat then 1%nat
  else if (n <? 192)%nat then 0%nat
  else if (n <? 240)%nat then 1%nat
  else 2%nat.

(** [s.length], for the string whose UTF-8 encoding is [s]. *)
Fixpoint utf16_length (s : string) : nat :=
  match s with
  | EmptyString => 0%nat
  | String c s' => (code_units c + utf16_length s')%nat
  end.

(** [fetchCitySuggestions]: the list handed to [setCitySuggestions].
    [geocode] stands for the request: [None] when [fetch] or [json] throws,
    else the parsed array. *)
Definition fetchCitySuggestions (geocode : string -> option (list Item))
  (query : string) : list Suggestion :=
  if String.eqb query "" || (utf16_length query <? 2)%nat then []
  else
    match geocode query with
    | None => []
    | Some data => slice5 (omap suggest (List.filter names_a_place data))
    end.

(** The state of the form with the city box (part_002). *)
Record Form := {
  profileData : gmap string JsValue;
  citySuggestions : list Suggestion;
  cityInput : string;
  showCitySuggestions : bool;
  citySelected : bool
}.

Definition handleCityInputChange (st : Form) (value : string) : Form :=
  {| profileData := <["location" := JsString ""]> (profileData st);
     citySuggestions := citySuggestions st;
     cityInput := value;
     showCitySuggestions := true;
     citySelected := false |}.

Definition handleCitySelect (st : Form) (c : Suggestion) : Form :=
  {| profileData := <["location" := JsString (displayName c)]> (profileData st);
     citySuggestions := [];
     cityInput := displayName c;
     showCitySuggestions := false;
     citySelected := true |}.

Definition autoSelectFirstCity (st : Form) : Form :=
  match citySuggestions st with
  | first :: _ =>
      if negb (String.eqb (cityInput st) "") && negb (citySelected st)
      then handleCitySelect st first
      else st
  | [] => st
  end.

Definition handleSubmit (st : Form) : ProfileSetup.Outcome :=
  ProfileSetup.handleSubmit (profileData st).

End CitySearch.

(** ** ProfileConfirmation.js *)

Module ProfileConfirmation.
Import VisualPage.

(** [getDisplayValue]; the dash is the text shown for an empty field. *)
Definition getDisplayValue (profileData : JsRef) (fieldId : string) : JsValue :=
  match profileData with
  | RefObject fields =>
      let value := default JsUndefined (fields !! fieldId) in
      if truthy value then value else JsString "—"
  | _ => JsString "—"
  end.

End ProfileConfirmation.

(** ** firebase.js *)

Module Firebase.
Import VisualPage.

(** The fields of a user document that the client reads. *)
Record UserDoc := {
  profile : JsRef;
  profileCompleted : JsValue
}.

(** What [getDoc] gives: a thrown error, a snapshot that does not exist, or
    the document data. *)
Inductive Read :=
| ReadError
| Missing
| Found (data : UserDoc).

(** [getUserProfile]: [inl] is the rethrown error, [inr None] is [null]. *)
Definition getUserProfile (read : Read) : unit + option UserDoc :=
  match read with
  | ReadError => inl tt
  | Missing => inr None
  | Found data => inr (Some data)
  end.

(** [checkProfileCompleted]: [=== true], and [false] from the [catch]. *)
Definition checkProfileCompleted (read : Read) : bool :=
  match read with
  | ReadError => false
  | Missing => false
  | Found data =>
      match profileCompleted data with
      | JsBool true => true
      | _ => false
      end
  end.

(** The seven keys written by [saveUserProfile]. *)
Definition savedKeys : list string :=
  ["age"; "location"; "propertyValue"; "vehicleValue"; "investments"; "debt";
   "salary"].

(** [saveUserProfile], up to the call of [setDoc]: the data passed to
    [setDoc] (its server time stamp aside); [None] is the TypeError of
    reading a field of [null] or [undefined], which the function rethrows
    before [setDoc] is called. *)
Definition saveUserProfile (profileData : JsRef) : option UserDoc :=
  match profileData with
  | RefObject fields =>
      Some {| profile :=
                RefObject
                  (list_to_map
                     ((fun k => (k, default JsUndefined (fields !! k))) <$> savedKeys));
              profileCompleted := JsBool true |}
  | _ => None
  end.

(** [saveUserProfile] with its [await]: [setDoc] tells whether the promise
    of the call resolves for the data it is given; a rejection (a field the
    store refuses, such as [undefined], no permission, no network) is
    rethrown.  [Some] is the data sent when the function resolves, [None] a
    rejection.  The call asks for a merge, so what the store holds
    afterwards also depends on what it held before; that is not modelled. *)
Definition saveUserProfile_await (setDoc : UserDoc -> bool) (profileData : JsRef)
  : option UserDoc :=
  match saveUserProfile profileData with
  | Some data => if setDoc data then Some data else None
  | None => None
  end.

End Firebase.

(** ** App.js *)

Module App.

Record State := {
  showButtons : bool;
  canClick : bool;
  user : option string;
  loading : bool;
  profileComplete : bool;
  userInputComplete : bool;
  queryData : option UserInputPage.Query.t;
  showAccountMenu : bool;
  isMenuClosing : bool;
  showAccountPage : bool
}.

Definition initial : State :=
  {| showButtons := false; canClick := false; user := None; loading := true;
     profileComplete := false; userInputComplete := false; queryData := None;
     showAccountMenu := false; isMenuClosing := false; showAccountPage := false |}.

(** What happens to the component: timers firing, the auth listener, and
    the handlers.  An awaited call comes with its outcome. *)
Inductive Event :=
| CanClickTimer
| AuthStateChanged (currentUser : option string) (read : Firebase.Read)
| ScreenClick (onAuthButton : bool)
| Logout (signedOut : bool)
| ToggleAccountMenu
| MenuTimer
| MouseLeave
| OpenAccountPage
| CloseAccountPage
| ProfileComplete (saved : bool)
| UserInputComplete (inputData : UserInputPage.Query.t).

Definition set_menu (st : State) (shown closing : bool) : State :=
  {| showButtons := showButtons st; canClick := canClick st; user := user st;
     loading := loading st; profileComplete := profileComplete st;
     userInputComplete := userInputComplete st; queryData := queryData st;
     showAccountMenu := shown; isMenuClosing := closing;
     showAccountPage := showAccountPage st |}.

Definition step (st : State) (ev : Event) : State :=
  match ev with
  | CanClickTimer =>
      {| showButtons := showButtons st; canClick := true; user := user st;
         loading := loading st; profileComplete := profileComplete st;
         userInputComplete := userInputComplete st; queryData := queryData st;
         showAccountMenu := showAccountMenu st; isMenuClosing := isMenuClosing st;
         showAccountPage := showAccountPage st |}
  | AuthStateChanged currentUser read =>
      {| showButtons := showButtons st; canClick := canClick st;
         user := currentUser;
         loading := false;
         profileComplete :=
           match currentUser with
           | Some _ => Firebase.checkProfileCompleted read
           | None => false
           end;
         userInputComplete := userInputComplete st; queryData := queryData st;
         showAccountMenu := false; isMenuClosing := false;
         showAccountPage := showAccountPage st |}
  | ScreenClick onAuthButton =>
      if onAuthButton then st
      else if canClick st && negb (showButtons st) && negb (bool_decide (is_Some (user st)))
      then {| showButtons := true; canClick := canClick st; user := user st;
              loading := loading st; profileComplete := profileComplete st;
              userInputComplete := userInputComplete st; queryData := queryData st;
              showAccountMenu := showAccountMenu st; isMenuClosing := isMenuClosing st;
              showAccountPage := showAccountPage st |}
      else st
  | Logout signedOut =>
      if signedOut
      then {| showButtons := false; canClick := canClick st; user := user st;
              loading := loading st; profileComplete := false;
              userInputComplete := userInputComplete st; queryData := queryData st;
              showAccountMenu := showAccountMenu st; isMenuClosing := isMenuClosing st;
              showAccountPage := showAccountPage st |}
      else st
  | ToggleAccountMenu =>
      if showAccountMenu st then set_menu st (showAccountMenu st) true
      else set_menu st true (isMenuClosing st)
  | MenuTimer => set_menu st false false
  | MouseLeave =>
      if showAccountMenu st && negb (isMenuClosing st)
      then set_menu st (showAccountMenu st) true
      else st
  | OpenAccountPage =>
      {| showButtons := showButtons st; canClick := canClick st; user := user st;
         loading := loading st; profileComplete := profileComplete st;
         userInputComplete := userInputComplete st; queryData := queryData st;
         showAccountMenu := false; isMenuClosing := false;
         showAccountPage := true |}
  | CloseAccountPage =>
      {| showButtons := showButtons st; canClick := canClick st; user := user st;
         loading := loading st; profileComplete := profileComplete st;
         userInputComplete := userInputComplete st; queryData := queryData st;
         showAccountMenu := showAccountMenu st; isMenuClosing := isMenuClosing st;
         showAccountPage := false |}
  | ProfileComplete saved =>
      (* [user.uid] of [null] throws inside the [try], like a failed save *)
      if saved && bool_decide (is_Some (user st))
      then {| showButtons := showButtons st; canClick := canClick st; user := user st;
              loading := loading st; profileComplete := true;
              userInputComplete := userInputComplete st; queryData := queryData st;
              showAccountMenu := showAccountMenu st; isMenuClosing := isMenuClosing st;
              showAccountPage := showAccountPage st |}
      else st
  | UserInputComplete inputData =>
      {| showButtons := showButtons st; canClick := canClick st; user := user st;
         loading := loading st; profileComplete := profileComplete st;
         userInputComplete := true; queryData := Some inputData;
         showAccountMenu := showAccountMenu st; isMenuClosing := isMenuClosing st;
         showAccountPage := showAccountPage st |}
  end.

Definition run (st : State) (evs : list Event) : State := fold_left step evs st.

(** What [App] returns. *)
Inductive Screen :=
| LoadingScreen
| AccountScreen
| ProfileSetupScreen
| UserInputScreen
| DashboardScreen
| LandingScreen.

Definition render (st : State) : Screen :=
  if loading st then LoadingScreen
  else match user st with
       | Some _ =>
           if showAccountPage st then AccountScreen
           else if negb (profileComplete st) then ProfileSetupScreen
           else if negb (userInputComplete st) then UserInputScreen
           else DashboardScreen
       | None => LandingScreen
       end.

End App.

(** * Vocabulary of the properties, and sample inputs *)

Section ClientVocabulary.
Import VisualPage.





(** The field [k] of the profile is missing, [null] or empty. *)
Definition missing_or_empty (profileData : JsRef) (k : string) : Prop :=
  opt_chain profileData k = JsUndefined
  \/ opt_chain profileData k = JsNull
  \/ opt_chain profileData k = JsString "".

(** A short-term bucket of three actions, none declaring a prerequisite. *)
Definition plain_bucket : list Recommendation :=
  [ {| action_id := "action_001"; name := "Build Emergency Fund";
       description := Some "Start building an emergency fund";
       personalized_description := None; prerequisites := Some [] |};
    {| action_id := "action_002"; name := "Create a Budget";
       description := None; personalized_description := Some "Track spending";
       prerequisites := None |};
    {| action_id := "action_003"; name := "Pay Off Credit Card";
       description := None; personalized_description := None;
       prerequisites := Some [] |} ].

(** The engine result of the README's shape: two short-term actions, the
    second declaring three prerequisites, and one medium-term action. *)
Definition emergency_fund : Recommendation :=
  {| action_id := "action_001"; name := "Build Emergency Fund";
     description := Some "Start building an emergency fund";
     personalized_description := None; prerequisites := Some [] |}.

Definition pay_off_debt : Recommendation :=
  {| action_id := "action_002"; name := "Pay Off Debt";
     description := None; personalized_description := None;
     prerequisites := Some ["Build Emergency Fund"; "Open IRA"; "Sell The House"] |}.

Definition open_ira : Recommendation :=
  {| action_id := "action_003"; name := "Open IRA";
     description := None; personalized_description := None;
     prerequisites := Some ["Pay Off Debt"] |}.

Definition sample_output : EngineOutput :=
  {| immediate := None;
     short_term := Some [emergency_fund; pay_off_debt];
     medium_term := Some [open_ira];
     long_term := Some [];
     extended_term := None |}.

End ClientVocabulary.

Section EngineVocabulary.
Import Engine.

(** The edge relation of the graph. *)
Definition edge (es : list Edge) (u w : string) : Prop := (u, w) ∈ es.

(** A list of finished nodes, latest first: every successor of an entry
    finished before it. *)
Inductive finished (es : list Edge) : list string -> Prop :=
| finished_nil : finished es []
| finished_cons v l :
    v ∉ l ->
    (forall w, edge es v w -> w ∈ l) ->
    finished es l ->
    finished es (v :: l).

Definition visit_finishes (es : list Edge)
  (visit : list string -> string -> option Outcome)
  (stack : list string) : Prop :=
  forall visited w visited',
    finished es visited ->
    visit visited w = Some (NoCycle visited') ->
    finished es visited'
    /\ w ∈ visited'
    /\ (forall x, x ∈ visited -> x ∈ visited')
    /\ (forall x, x ∈ visited' -> x ∈ visited \/ x ∉ stack).

Definition visit_answers (universe : list string)
  (visit : list string -> string -> option Outcome) : Prop :=
  forall visited w, w ∈ universe -> visit visited w <> None.

(** Following the edges of [c] backwards from [x] leads to [y]: [c] is
    [(x1, x); (x2, x1); ...; (y, xn)]. *)
Fixpoint back_walk (c : list Edge) (x y : string) : Prop :=
  match c with
  | [] => x = y
  | (a, b) :: rest => b = x /\ back_walk rest a y
  end.

(** A cycle of the graph: a non-empty closed walk along its edges. *)
Definition is_cycle (es : list Edge) (c : list Edge) : Prop :=
  c <> [] /\ (forall e, e ∈ c -> e ∈ es) /\ exists v, back_walk c v v.

(** The oldest entry of the stack [x :: l]. *)
Fixpoint bottom (x : string) (l : list string) : string :=
  match l with
  | [] => x
  | a :: below => bottom a below
  end.

Definition visit_sound (es : list Edge)
  (visit : list string -> string -> option Outcome)
  (stack : list string) : Prop :=
  forall visited w c,
    (forall e, e ∈ stack_edges (w :: stack) -> e ∈ es) ->
    visit visited w = Some (FoundCycle c) ->
    is_cycle es c.

(** Every entry stands in relation [R] to itself and to all entries after
    it. *)
Inductive all_later {A : Type} (R : A -> A -> Prop) : list A -> Prop :=
| all_later_nil : all_later R []
| all_later_cons a l :
    (forall b, b ∈ a :: l -> R a b) ->
    all_later R l ->
    all_later R (a :: l).

(** No entry of the list has a prerequisite at or after its own place;
    [P u d] restricts the pairs prerequisite [u], dependent [d] looked at. *)
Definition respects (P : ScoredAction -> ScoredAction -> Prop) (es : list Edge)
  : list ScoredAction -> Prop :=
  all_later (fun d u => P u d -> ~ edge es (node_id u) (node_id d)).

Definition any_pair (u d : ScoredAction) : Prop := True.

(** The prerequisite's horizon is not later than the dependent's. *)
Definition not_later (u d : ScoredAction) : Prop :=
  (horizon_rank (horizon (action u)) <= horizon_rank (horizon (action d)))%nat.

(** Horizons never go back along the list. *)
Definition by_horizon : list ScoredAction -> Prop :=
  all_later (fun a b => not_later a b).

Definition flat_breakdown (t : Q) : ScoreBreakdown :=
  {| base_priority_score := t; risk_alignment := t; goal_alignment := t;
     profile_fit := t; urgency := t; impact_potential := t; feasibility := t;
     priority_area_match := t |}.

Definition sample_node (i n : string) (h : Horizon) (ps : list string) (t : Q)
  : ScoredAction :=
  {| action := {| id := i; name := n; category := "general"; risk_level := Low;
                  base_priority := t; effort := 1; complexity := 1;
                  prerequisites := ps; horizon := h; template := None |};
     breakdown := flat_breakdown t;
     total := t |}.

(** Two actions that declare each other as prerequisite. *)
Definition cyclic_candidates : list ScoredAction :=
  [ sample_node "a" "Build Emergency Fund" ShortTerm ["Pay Off Debt"] 80;
    sample_node "b" "Pay Off Debt" ShortTerm ["Build Emergency Fund"] 60 ].

(** The weight set of the README, its eighth weight at zero. *)
Definition readme_weights : ScoringWeights :=
  {| base_priority_weight := 15 # 100;
     risk_tolerance_weight := 20 # 100;
     goal_alignment_weight := 25 # 100;
     profile_fit_weight := 15 # 100;
     urgency_weight := 10 # 100;
     impact_weight := 10 # 100;
     feasibility_weight := 5 # 100;
     priority_area_weight := 0 |}.

(** The same with the goal-alignment weight lowered: the sum is 0.97. *)
Definition short_weights : ScoringWeights :=
  {| base_priority_weight := 15 # 100;
     risk_tolerance_weight := 20 # 100;
     goal_alignment_weight := 22 # 100;
     profile_fit_weight := 15 # 100;
     urgency_weight := 10 # 100;
     impact_weight := 10 # 100;
     feasibility_weight := 5 # 100;
     priority_area_weight := 0 |}.

Definition sample_catalog : list Action :=
  [ {| id := "action_001"; name := "Build Emergency Fund"; category := "savings";
       risk_level := Low; base_priority := 75; effort := 2; complexity := 1;
       prerequisites := ["Create a Budget"]; horizon := ShortTerm;
       template := None |};
    {| id := "action_002"; name := "Create a Budget"; category := "savings";
       risk_level := Low; base_priority := 60; effort := 1; complexity := 1;
       prerequisites := []; horizon := ShortTerm; template := None |};
    {| id := "action_003"; name := "Open Index Fund"; category := "investing";
       risk_level := Medium; base_priority := 90; effort := 3; complexity := 2;
       prerequisites := ["Build Emergency Fund"; "Win The Lottery"];
       horizon := MediumTerm; template := None |} ].

(** Components that score every dimension by the base priority. *)
Definition sample_components : Components nat RiskLevel (nat * RiskLevel) :=
  {| normalize := fun profile query => (profile, query);
     generate_actions := fun ctx => [];
     subscores := fun ctx a => flat_breakdown (base_priority a);
     estimate_timeline := fun ctx a => "3-6 months";
     personalize_description := fun ctx a => name (action a) |}.

End EngineVocabulary.

Section FormVocabulary.
Import UserInputPage VisualPage.

(** [l] is a sequence of the byte strings [toks]. *)
Inductive made_of (toks : list (list ascii)) : list ascii -> Prop :=
| made_of_nil : made_of toks []
| made_of_cons tok l : tok ∈ toks -> made_of toks l -> made_of toks (tok ++ l)%list.

(** No token begins with another token. *)
Definition prefix_free (toks : list (list ascii)) : bool :=
  forallb (fun t1 => forallb (fun t2 => implb (starts_with t1 t2)
                                          (bool_decide (t1 = t2))) toks) toks.

(** [s] holds white space only. *)
Definition all_spaces (s : string) : Prop :=
  made_of white_space (list_ascii_of_string s).

(** [t] does not begin with white space. *)
Definition starts_clean (t : string) : Prop :=
  forall tok rest, tok ∈ white_space -> list_ascii_of_string t <> (tok ++ rest)%list.

(** [t] does not end with white space. *)
Definition ends_clean (t : string) : Prop :=
  forall tok rest, tok ∈ white_space -> list_ascii_of_string t <> (rest ++ tok)%list.

(** [t] is [s] without the white space around it, and is not empty. *)
Definition trimmed_of (s t : string) : Prop :=
  t <> ""
  /\ (exists pre post,
        s = String.append pre (String.append t post)
        /\ all_spaces pre /\ all_spaces post)
  /\ starts_clean t /\ ends_clean t.

(** The object literal of [handleSubmit], as the [queryData] of
    [VisualPage]. *)
Definition queryObject (q : Query.t) : JsRef :=
  RefObject
    (<["currentSituation" := JsString (Query.currentSituation q)]>
       (<["futureGoals" := JsString (Query.futureGoals q)]>
          (<["riskLevel" := JsString (riskLevel_string (Query.riskLevel q))]> ∅))).

(** A profile with all seven answers, and a dependents flag besides. *)
Definition filled_profile : gmap string JsValue :=
  <["age" := JsString "25–29"]>
    (<["location" := JsString "Vancouver"]>
       (<["propertyValue" := JsString "No property"]>
          (<["vehicleValue" := JsString "No car"]>
             (<["investments" := JsString "$0"]>
                (<["debt" := JsString "$5k–$15k"]>
                   (<["salary" := JsString "$3k–$5k"]>
                      (<["has_dependents" := JsBool true]> ∅))))))).

End FormVocabulary.


Section DeckVocabulary.
Import ScrollableCards.

(** The selected index names one of the [numberOfCards] cards; with no
    card it is the initial 0. *)
Definition in_deck (numberOfCards : nat) (st : State) : Prop :=
  0 <= selectedIndex st < Z.of_nat numberOfCards
  \/ (numberOfCards = 0%nat /\ selectedIndex st = 0).

End DeckVocabulary.

Section CityVocabulary.
Import VisualPage CitySearch.

(** Two geocoder entries: a city, and a point of interest without a
    place name in its address. *)
Definition vancouver_item : Item :=
  {| type := Some "administrative"; name := Some "Vancouver";
     display_name := Some "Vancouver, Metro Vancouver, British Columbia, Canada";
     address := Some {| city := Some "Vancouver"; town := None; village := None;
                        state := Some "British Columbia"; country := Some "Canada" |} |}.

Definition museum_item : Item :=
  {| type := Some "museum"; name := Some "Museum of Vancouver";
     display_name := Some "Museum of Vancouver, Chestnut Street, Canada";
     address := Some {| city := None; town := None; village := None;
                        state := Some "British Columbia"; country := Some "Canada" |} |}.

Definition sample_geocode (query : string) : option (list Item) :=
  Some [museum_item; vancouver_item].

Definition vancouver_suggestion : Suggestion :=
  {| displayName := "Vancouver, British Columbia, Canada";
     suggestion_city := Some "Vancouver";
     fullAddress := Some "Vancouver, Metro Vancouver, British Columbia, Canada" |}.

(** A form whose six other answers are given and whose suggestion list
    holds one city. *)
Definition sample_form : Form :=
  {| profileData := filled_profile;
     citySuggestions := [vancouver_suggestion];
     cityInput := "";
     showCitySuggestions := false;
     citySelected := false |}.

End CityVocabulary.

(** * Properties *)


(** ** UserInputPage: the risk thresholds *)

Section RiskThresholds.
Import UserInputPage.

Lemma getRiskLevel_cases (v : Z) :
  (v < 33 /\ getRiskLevel v = low)
  \/ (33 <= v < 67 /\ getRiskLevel v = medium)
  \/ (67 <= v /\ getRiskLevel v = high).
Proof.
  unfold getRiskLevel.
  destruct (Z.ltb_spec v 33); [left; done|].
  destruct (Z.ltb_spec v 67); [right; left; done|].
  right; right; split; [lia|done].
Qed.

(** C1.  For a slider value [v] in 0..100, [getRiskLevel] answers ['low']
    exactly when [v < 33], ['medium'] exactly when [33 <= v < 67] and
    ['high'] exactly when [v >= 67]. *)
Theorem getRiskLevel_thresholds (v : Z) :
  0 <= v <= 100 ->
  (riskLevel_string (getRiskLevel v) = "low" <-> v < 33)
  /\ (riskLevel_string (getRiskLevel v) = "medium" <-> 33 <= v < 67)
  /\ (riskLevel_string (getRiskLevel v) = "high" <-> v >= 67).
Proof.
  intros _.
  destruct (getRiskLevel_cases v) as [[Hv ->]|[[Hv ->]|[Hv ->]]]; cbn;
    repeat split; intros; try discriminate; try lia.
Qed.

Lemma getRiskLevel_thresholds_witness :
  0 <= 50 <= 100
  /\ (riskLevel_string (getRiskLevel 50) = "medium" <-> 33 <= 50 < 67).
Proof.
  split; [lia|].
  apply (getRiskLevel_thresholds 50); lia.
Defined.

End RiskThresholds.

(** ** VisualPage: resource links *)

Section ResourceLinks.
Import VisualPage.

Lemma append_cons (c : ascii) (a b : string) :
  String.append (String c a) b = String c (String.append a b).
Proof. reflexivity. Qed.













Example generateResources_debt :
  generateResources "Pay Off Credit Card DEBT" "action_007"
  = [ {| title := "Debt Payoff Strategies";
         url := "https://www.nerdwallet.com/article/finance/pay-off-debt" |};
      {| title := "Debt Avalanche vs Snowball";
         url := "https://www.investopedia.com/articles/personal-finance/080716/debt-avalanche-vs-debt-snowball-which-best-you.asp" |} ].
Proof. reflexivity. Qed.

Example generateResources_default :
  generateResources "Review Subscriptions" "action_042" = defaultResources.
Proof. reflexivity. Qed.

End ResourceLinks.

(** ** VisualPage: dependencies of the visualization nodes *)

Section NodeDependencies.
Import VisualPage.

Lemma fold_Set_add_elem (items acc : list string) (x : string) :
  x ∈ fold_left Set_add items acc <-> x ∈ acc \/ x ∈ items.
Proof.
  revert acc; induction items as [|y items IH]; intros acc; cbn.
  - rewrite elem_of_nil. tauto.
  - rewrite IH, elem_of_cons. unfold Set_add. case_bool_decide as Hy.
    + split; [tauto|]. intros [?|[->|?]]; tauto.
    + rewrite elem_of_app, list_elem_of_singleton. tauto.
Qed.

Lemma new_Set_elem (items : list string) (x : string) :
  x ∈ new_Set items <-> x ∈ items.
Proof.
  unfold new_Set. rewrite fold_Set_add_elem, elem_of_nil. tauto.
Qed.

Lemma Set_has_stageIds (recs : list Recommendation) (d : string) :
  Is_true (Set_has (stageIds recs) d) <-> d ∈ action_id <$> recs.
Proof.
  unfold Set_has, stageIds. rewrite bool_decide_spec. apply new_Set_elem.
Qed.

Lemma filterBoolean_elem (l : list (option string)) (d : string) :
  d ∈ filterBoolean l <-> Some d ∈ l /\ d <> "".
Proof.
  induction l as [|[s|] l IH]; cbn.
  - rewrite !elem_of_nil. tauto.
  - destruct (String.eqb_spec s "") as [->|Hs]; cbn.
    + rewrite IH, elem_of_cons. split; [tauto|].
      intros [[[= ->]|?] ?]; tauto.
    + rewrite !elem_of_cons, IH. split.
      * intros [->|[? ?]]; tauto.
      * intros [[[= ->]|?] ?]; tauto.
  - rewrite IH, elem_of_cons. split; [tauto|]. intros [[?|?] ?]; [done|tauto].
Qed.

Lemma findByName_Some (allRecs : list Recommendation) (p : string)
  (depRec : Recommendation) :
  findByName allRecs p = Some depRec -> depRec ∈ allRecs /\ name depRec = p.
Proof.
  unfold findByName. intros Hf. apply find_some in Hf as [Hin Hn].
  split; [by apply list_elem_of_In | by apply String.eqb_eq].
Qed.

Lemma findByName_None (allRecs : list Recommendation) (p : string) :
  findByName allRecs p = None <-> forall r, r ∈ allRecs -> name r <> p.
Proof.
  unfold findByName. split.
  - intros Hf r Hin Hn. apply list_elem_of_In in Hin.
    pose proof (find_none _ _ Hf r Hin) as Hr. cbn in Hr.
    apply String.eqb_neq in Hr. done.
  - intros Hall. destruct (find _ allRecs) as [r|] eqn:Hf; [|done].
    apply find_some in Hf as [Hin Hn]. apply String.eqb_eq in Hn.
    apply list_elem_of_In in Hin. by destruct (Hall r Hin).
Qed.

Lemma engineDeps_elem (allRecs : list Recommendation) (rec : Recommendation)
  (d : string) :
  d ∈ engineDeps allRecs rec <->
  exists p depRec,
    p ∈ default [] (prerequisites rec)
    /\ findByName allRecs p = Some depRec
    /\ action_id depRec = d
    /\ d <> "".
Proof.
  unfold engineDeps. rewrite filterBoolean_elem, list_elem_of_fmap. split.
  - intros [(p & Hp & Hin) Hd].
    destruct (findByName allRecs p) as [depRec|] eqn:Hf; [|done].
    exists p, depRec. injection Hp as <-. done.
  - intros (p & depRec & Hin & Hf & Hid & Hd). split; [|done].
    exists p. rewrite Hf, Hid. done.
Qed.

Lemma allDeps_elem (recs allRecs : list Recommendation) (index : nat)
  (rec : Recommendation) (d : string) :
  d ∈ allDeps recs allRecs index rec <->
  d ∈ sequentialDeps recs index
  \/ (d ∈ engineDeps allRecs rec /\ d ∈ action_id <$> recs).
Proof.
  unfold allDeps, relevantEngineDeps.
  rewrite new_Set_elem, elem_of_app, list_elem_of_filter, Set_has_stageIds.
  tauto.
Qed.

Lemma sequentialDeps_elem (recs : list Recommendation) (index : nat) (d : string) :
  d ∈ sequentialDeps recs index <->
  (0 < index)%nat /\ exists prev, recs !! (index - 1)%nat = Some prev
                                  /\ d = action_id prev.
Proof.
  unfold sequentialDeps. destruct (Nat.ltb_spec 0 index) as [Hpos|Hz].
  - destruct (recs !! (index - 1)%nat) as [prev|].
    + rewrite list_elem_of_singleton. split.
      * intros ->. split; [done|]. by exists prev.
      * intros [_ (prev' & [= <-] & ->)]. done.
    + rewrite elem_of_nil. split; [done|]. intros [_ (prev & ? & _)]. done.
  - rewrite elem_of_nil. split; [done|]. intros [? _]. lia.
Qed.

(** Inside [map] the predecessor read by [sequentialDeps] is in range. *)
Lemma sequentialDeps_in_range (recs : list Recommendation) (index : nat) :
  (0 < index < length recs)%nat ->
  exists prev, recs !! (index - 1)%nat = Some prev
               /\ sequentialDeps recs index = [action_id prev].
Proof.
  intros [Hpos Hlt]. destruct (lookup_lt_is_Some_2 recs (index - 1)) as [prev Hp]; [lia|].
  exists prev. split; [done|]. unfold sequentialDeps.
  destruct (Nat.ltb_spec 0 index); [|lia]. by rewrite Hp.
Qed.

Lemma transform_lookup (recs allRecs : list Recommendation) (i : nat) (node : Node.t) :
  transformRecommendations recs allRecs !! i = Some node <->
  exists rec, recs !! i = Some rec /\ node = transformOne recs allRecs i rec.
Proof. unfold transformRecommendations. apply list_lookup_imap_Some. Qed.

Lemma new_Set_singleton (x : string) : new_Set [x] = [x].
Proof.
  unfold new_Set, Set_add. cbn. case_bool_decide as Hx; [|done].
  by apply elem_of_nil in Hx.
Qed.

Lemma allDeps_no_prerequisites (recs allRecs : list Recommendation) (i : nat)
  (rec : Recommendation) :
  (i < length recs)%nat ->
  default [] (prerequisites rec) = [] ->
  allDeps recs allRecs i rec
  = match i with
    | O => []
    | S j => from_option (fun prev => [action_id prev]) [] (recs !! j)
    end.
Proof.
  intros Hi Hnone. unfold allDeps, relevantEngineDeps, engineDeps.
  rewrite Hnone. cbn [fmap list_fmap filterBoolean]. rewrite filter_nil, app_nil_r.
  destruct i as [|j]; [done|].
  destruct (sequentialDeps_in_range recs (S j)) as (prev & Hp & ->); [lia|].
  replace (S j - 1)%nat with j in Hp by lia. rewrite Hp. cbn.
  apply new_Set_singleton.
Qed.

(** C2.  The transformation keeps one node per recommendation, in order;
    the node at index [i > 0] has the id of the node at index [i - 1]
    among its dependencies; at index 0 no sequential dependency is added
    (that node depends on same-stage engine prerequisites only); and when
    no recommendation of the bucket declares a prerequisite, each node
    depends on exactly its predecessor and the first on nothing. *)
Theorem transformRecommendations_sequential (recs allRecs : list Recommendation) :
  length (transformRecommendations recs allRecs) = length recs
  /\ (forall (i : nat) node rec,
        transformRecommendations recs allRecs !! i = Some node ->
        recs !! i = Some rec -> Node.id node = action_id rec)
  /\ (forall (i : nat) node prevNode,
        transformRecommendations recs allRecs !! (S i) = Some node ->
        transformRecommendations recs allRecs !! i = Some prevNode ->
        Node.id prevNode ∈ Node.dependencies node)
  /\ sequentialDeps recs 0 = []
  /\ (forall node rec,
        transformRecommendations recs allRecs !! 0%nat = Some node ->
        recs !! 0%nat = Some rec ->
        Node.dependencies node = new_Set (relevantEngineDeps recs allRecs rec))
  /\ ((forall rec, rec ∈ recs -> default [] (prerequisites rec) = []) ->
      forall (i : nat) node,
        transformRecommendations recs allRecs !! i = Some node ->
        Node.dependencies node
        = match i with
          | O => []
          | S j => from_option (fun prevNode => [Node.id prevNode]) []
                     (transformRecommendations recs allRecs !! j)
          end).
Proof.
  split; [apply length_imap|].
  split.
  { intros i node rec Hn Hr. apply transform_lookup in Hn as (rec' & Hr' & ->).
    cbn. congruence. }
  split.
  { intros i node prevNode Hn Hp.
    apply transform_lookup in Hn as (rec & Hr & ->).
    apply transform_lookup in Hp as (prev & Hprev & ->).
    cbn [Node.dependencies Node.id transformOne].
    apply allDeps_elem. left. apply sequentialDeps_elem.
    split; [lia|]. exists prev. replace (S i - 1)%nat with i by lia. done. }
  split; [done|].
  split.
  { intros node rec Hn Hr. apply transform_lookup in Hn as (rec' & Hr' & ->).
    assert (rec' = rec) as -> by congruence. done. }
  intros Hnone i node Hn.
  apply transform_lookup in Hn as (rec & Hr & ->).
  cbn [Node.dependencies transformOne].
  rewrite allDeps_no_prerequisites.
  - destruct i as [|j]; [done|].
    unfold transformRecommendations. rewrite list_lookup_imap.
    by destruct (recs !! j).
  - by eapply lookup_lt_Some.
  - apply Hnone. by eapply list_elem_of_lookup_2.
Qed.

Lemma transformRecommendations_sequential_witness :
  (forall rec, rec ∈ plain_bucket -> default [] (prerequisites rec) = [])
  /\ (forall (i : nat) node,
        transformRecommendations plain_bucket plain_bucket !! i = Some node ->
        Node.dependencies node
        = match i with
          | O => []
          | S j => from_option (fun prevNode => [Node.id prevNode]) []
                     (transformRecommendations plain_bucket plain_bucket !! j)
          end).
Proof.
  assert (Hnone : forall rec, rec ∈ plain_bucket ->
                              default [] (prerequisites rec) = []).
  { intros rec Hin. unfold plain_bucket in Hin.
    repeat (apply elem_of_cons in Hin as [->|Hin]; [reflexivity|]).
    by apply elem_of_nil in Hin. }
  split; [exact Hnone|].
  destruct (transformRecommendations_sequential plain_bucket plain_bucket)
    as (_ & _ & _ & _ & _ & Hchain).
  exact (Hchain Hnone).
Defined.

Example plain_bucket_chain :
  Node.dependencies <$> transformRecommendations plain_bucket plain_bucket
  = [ []; ["action_001"]; ["action_002"] ].
Proof. reflexivity. Qed.

(** C9.  A dependency of a node is the sequential one, or the id of the
    recommendation that [find] matches by exact name, in the full result,
    to one of the node's declared prerequisites, and then only if that id
    is an id of the node's own stage.  A prerequisite whose name no
    recommendation carries, or whose match has no id in the stage, is
    dropped: the nodes built for the stage have no dependency outside the
    stage's ids. *)
Theorem engine_prerequisite_same_stage (recs allRecs : list Recommendation)
  (i : nat) (rec : Recommendation) (node : Node.t) :
  recs !! i = Some rec ->
  transformRecommendations recs allRecs !! i = Some node ->
  (forall d,
      d ∈ Node.dependencies node <->
      ((0 < i)%nat /\ exists prev, recs !! (i - 1)%nat = Some prev
                                 /\ d = action_id prev)
      \/ (exists p depRec,
             p ∈ default [] (prerequisites rec)
             /\ findByName allRecs p = Some depRec
             /\ depRec ∈ allRecs /\ name depRec = p
             /\ action_id depRec = d /\ d <> ""
             /\ d ∈ action_id <$> recs))
  /\ (forall d, d ∈ Node.dependencies node -> d ∈ action_id <$> recs)
  /\ (forall p, p ∈ default [] (prerequisites rec) ->
                findByName allRecs p = None ->
                forall r, r ∈ allRecs -> name r <> p)
  /\ (forall p depRec,
        findByName allRecs p = Some depRec ->
        action_id depRec ∉ action_id <$> recs ->
        action_id depRec ∉ Node.dependencies node).
Proof.
  intros Hr Hn. apply transform_lookup in Hn as (rec' & Hr' & ->).
  assert (rec' = rec) as -> by congruence. cbn [Node.dependencies transformOne].
  assert (Hstage : forall d, d ∈ allDeps recs allRecs i rec -> d ∈ action_id <$> recs).
  { intros d Hd. apply allDeps_elem in Hd as [Hd|[_ Hd]]; [|done].
    apply sequentialDeps_elem in Hd as (_ & prev & Hp & ->).
    apply list_elem_of_fmap. exists prev. split; [done|].
    by eapply list_elem_of_lookup_2. }
  split; [|split; [exact Hstage|split]].
  - intros d. rewrite allDeps_elem, sequentialDeps_elem, engineDeps_elem. split.
    + intros [Hseq|[(p & depRec & Hp & Hf & Hid & Hd) Hin]]; [by left|].
      right. exists p, depRec. destruct (findByName_Some _ _ _ Hf). done.
    + intros [Hseq|(p & depRec & Hp & Hf & _ & _ & Hid & Hd & Hin)]; [by left|].
      right. split; [|done]. by exists p, depRec.
  - intros p _ Hf. by apply findByName_None.
  - intros p depRec _ Hout Hd. apply Hout, Hstage, Hd.
Qed.

Example sample_transformed :
  (Node.dependencies <$> shortTerm (transformedRecommendations sample_output)
   = [ []; ["action_001"] ])
  /\ (Node.dependencies <$> mediumTerm (transformedRecommendations sample_output)
      = [ [] ]).
Proof. split; reflexivity. Qed.

Lemma engine_prerequisite_same_stage_witness :
  [emergency_fund; pay_off_debt] !! 1%nat = Some pay_off_debt
  /\ (forall d,
        d ∈ Node.dependencies
              (transformOne [emergency_fund; pay_off_debt] (allRecsOf sample_output)
                 1 pay_off_debt) ->
        d ∈ action_id <$> [emergency_fund; pay_off_debt]).
Proof.
  split; [reflexivity|].
  apply (engine_prerequisite_same_stage
           [emergency_fund; pay_off_debt] (allRecsOf sample_output)
           1 pay_off_debt); reflexivity.
Defined.

End NodeDependencies.

(** ** VisualPage: the engine request *)

Section EngineRequest.
Import VisualPage.

Lemma js_or_missing (profileData : JsRef) (k : string) (dflt : JsValue) :
  missing_or_empty profileData k -> js_or (opt_chain profileData k) dflt = dflt.
Proof. unfold js_or. by intros [->|[->| ->]]. Qed.

Lemma js_or_present (v dflt : JsValue) : truthy v = true -> js_or v dflt = v.
Proof. unfold js_or. by intros ->. Qed.

(** A profile object that lacks a key, and an absent profile, both read as
    [undefined]. *)
Lemma missing_key (fields : gmap string JsValue) (k : string) :
  fields !! k = None -> missing_or_empty (RefObject fields) k.
Proof. intros Hk. left. cbn. by rewrite Hk. Qed.

Lemma missing_profile (k : string) :
  missing_or_empty RefNull k /\ missing_or_empty RefUndefined k.
Proof. split; by left. Qed.

(** C3, as the code has it.  A missing, [null] or empty profile field is
    replaced by its default: '30-34' for the age, 'Unknown' for the
    location, 'prefer_not_to_say' for property value, vehicle value,
    investments, debt and salary, [false] for the dependents flag; the
    employment stability is 0.7 whatever the profile holds; and for a
    signed-in user the request is built and sent, never an error: the only
    error left is the one the engine API answers with. *)
Theorem engineProfile_defaults (profileData : JsRef) :
  (missing_or_empty profileData "age" ->
     age_range (engineProfile profileData) = JsString "30-34")
  /\ (missing_or_empty profileData "location" ->
        location (engineProfile profileData) = JsString "Unknown")
  /\ (missing_or_empty profileData "propertyValue" ->
        property_value (engineProfile profileData) = JsString "prefer_not_to_say")
  /\ (missing_or_empty profileData "vehicleValue" ->
        vehicle_value (engineProfile profileData) = JsString "prefer_not_to_say")
  /\ (missing_or_empty profileData "investments" ->
        investments (engineProfile profileData) = JsString "prefer_not_to_say")
  /\ (missing_or_empty profileData "debt" ->
        debt (engineProfile profileData) = JsString "prefer_not_to_say")
  /\ (missing_or_empty profileData "salary" ->
        monthly_salary (engineProfile profileData) = JsString "prefer_not_to_say")
  /\ (missing_or_empty profileData "has_dependents" ->
        has_dependents (engineProfile profileData) = JsBool false)
  /\ employment_stability (engineProfile profileData) = 7 # 10
  /\ (forall user queryData,
        requestBody (Some user) profileData queryData
        = inr (engineProfile profileData, engineQuery queryData))
  /\ (forall user engine_api queryData,
        fetchRecommendations (Some user) engine_api profileData queryData
        = let response := engine_api (engineProfile profileData, engineQuery queryData) in
          if ok response
          then inr (transformedRecommendations (json response))
          else inl (EngineApiError (statusText response))).
Proof.
  repeat split; try (intros Hm; cbn; by apply js_or_missing).
Qed.

Lemma engineProfile_defaults_witness :
  missing_or_empty (RefObject ∅) "debt"
  /\ debt (engineProfile (RefObject ∅)) = JsString "prefer_not_to_say".
Proof.
  assert (Hm : missing_or_empty (RefObject ∅) "debt") by (left; reflexivity).
  split; [exact Hm|].
  destruct (engineProfile_defaults (RefObject ∅))
    as (_ & _ & _ & _ & _ & Hdebt & _).
  exact (Hdebt Hm).
Defined.

(** C3, as stated, fails for the age bucket: an absent age is sent as
    '30-34', not as 'prefer_not_to_say'. *)
Lemma absent_age_is_not_prefer_not_to_say :
  missing_or_empty (RefObject ∅) "age"
  /\ age_range (engineProfile (RefObject ∅)) = JsString "30-34"
  /\ age_range (engineProfile (RefObject ∅)) <> JsString "prefer_not_to_say".
Proof.
  split; [left; reflexivity|]. split; [reflexivity|]. cbn. discriminate.
Qed.

(** A present field is passed on unchanged. *)
Example engineProfile_present :
  debt (engineProfile (RefObject {[ "debt" := JsString "$5k-$15k" ]}))
  = JsString "$5k-$15k".
Proof. reflexivity. Qed.

Example requestBody_signed_out (profileData queryData : JsRef) :
  requestBody None profileData queryData = inl UserNotAuthenticated.
Proof. reflexivity. Qed.

End EngineRequest.

(** ** DAG Builder: depth-first cycle detection *)

Section CycleDetection.
Import Engine.

Variable es : list Edge.

Lemma successors_elem (v w : string) :
  w ∈ successors es v <-> edge es v w.
Proof.
  unfold successors, edge. rewrite list_elem_of_In, in_map_iff. split.
  - intros ([a b] & <- & Hin). apply filter_In in Hin as [Hin Ha].
    cbn in Ha. apply String.eqb_eq in Ha as <-. by apply list_elem_of_In.
  - intros Hin. exists (v, w). split; [done|]. apply filter_In.
    split; [by apply list_elem_of_In | cbn; apply String.eqb_refl].
Qed.

(** *** Completeness: a traversal without a cycle finishes its nodes *)

Lemma dfs_each_finishes visit stack :
  visit_finishes es visit stack ->
  forall ws visited visited',
    finished es visited ->
    dfs_each visit ws visited = Some (NoCycle visited') ->
    finished es visited'
    /\ (forall w, w ∈ ws -> w ∈ visited')
    /\ (forall x, x ∈ visited -> x ∈ visited')
    /\ (forall x, x ∈ visited' -> x ∈ visited \/ x ∉ stack).
Proof.
  intros Hvisit ws. induction ws as [|w ws IH]; intros visited visited' Hfin Hrun;
    cbn in Hrun.
  - injection Hrun as <-. repeat split; try done.
    + intros w Hw. by apply elem_of_nil in Hw.
    + by left.
  - destruct (visit visited w) as [[c|vis1]|] eqn:Hw; try discriminate.
    destruct (Hvisit _ _ _ Hfin Hw) as (Hf1 & Hw1 & Hmono1 & Hnew1).
    destruct (IH _ _ Hf1 Hrun) as (Hf2 & Hws & Hmono2 & Hnew2).
    repeat split; try done.
    + intros x Hx. apply elem_of_cons in Hx as [->|Hx]; auto.
    + auto.
    + intros x Hx. destruct (Hnew2 x Hx) as [Hx1|Hx1]; auto.
Qed.

Lemma dfs_visit_finishes depth stack :
  visit_finishes es (dfs_visit depth es stack) stack.
Proof.
  revert stack. induction depth as [|depth IH]; intros stack visited v visited' Hfin Hrun;
    cbn in Hrun; [discriminate|].
  case_bool_decide as Hstack; [discriminate|].
  case_bool_decide as Hvis.
  - injection Hrun as <-. repeat split; auto.
  - destruct (dfs_each _ _ visited) as [[c|vis1]|] eqn:Heach; try discriminate.
    injection Hrun as <-.
    destruct (dfs_each_finishes _ _ (IH (v :: stack)) _ _ _ Hfin Heach)
      as (Hf1 & Hsucc & Hmono & Hnew).
    assert (Hv : v ∉ vis1).
    { intros Hin. destruct (Hnew v Hin) as [?|Hout]; [done|].
      apply Hout. by left. }
    repeat split.
    + constructor; [done| |done].
      intros w Hw. by apply Hsucc, successors_elem.
    + by left.
    + intros x Hx. right. auto.
    + intros x Hx. apply elem_of_cons in Hx as [->|Hx]; [by right|].
      destruct (Hnew x Hx) as [?|Hout]; [by left|].
      right. intros Hin. apply Hout. by right.
Qed.

(** *** The recursion never hits its depth bound *)

Variable universe : list string.
Hypothesis targets_in_universe : forall u w, edge es u w -> w ∈ universe.

Lemma dfs_each_answers visit :
  visit_answers universe visit ->
  forall ws visited,
    (forall w, w ∈ ws -> w ∈ universe) ->
    dfs_each visit ws visited <> None.
Proof.
  intros Hvisit ws. induction ws as [|w ws IH]; intros visited Hws; cbn; [done|].
  pose proof (Hvisit visited w (Hws w ltac:(left))) as Hw.
  destruct (visit visited w) as [[c|vis1]|]; [done| |done].
  apply IH. intros x Hx. apply Hws. by right.
Qed.

Lemma dfs_visit_answers depth stack :
  NoDup stack ->
  (forall x, x ∈ stack -> x ∈ universe) ->
  (length universe < depth + length stack)%nat ->
  visit_answers universe (dfs_visit depth es stack).
Proof.
  revert stack. induction depth as [|depth IH]; intros stack Hnd Hsub Hlen visited v Hv.
  - pose proof (submseteq_length _ _ (NoDup_submseteq _ _ Hnd Hsub)). lia.
  - cbn. case_bool_decide as Hstack; [done|].
    case_bool_decide as Hvis; [done|].
    assert (Hrec : dfs_each (dfs_visit depth es (v :: stack)) (successors es v) visited
                   <> None).
    { apply dfs_each_answers.
      - apply IH.
        + by constructor.
        + intros x Hx. apply elem_of_cons in Hx as [->|Hx]; auto.
        + cbn. lia.
      - intros w Hw. apply successors_elem in Hw. by eapply targets_in_universe. }
    destruct (dfs_each _ _ visited) as [[c|vis1]|]; done.
Qed.

End CycleDetection.

(** ** DAG Builder: what a detected cycle is *)

Section DetectedCycle.
Import Engine.

Variable es : list Edge.

Lemma stack_edges_walk (x : string) (l : list string) :
  back_walk (stack_edges (x :: l)) x (bottom x l).
Proof.
  revert x; induction l as [|a l IH]; intros x; [done|].
  cbn [stack_edges back_walk bottom]. split; [done|]. apply IH.
Qed.

Lemma take_through_bottom (v x : string) (stack : list string) :
  v ∈ stack -> bottom x (take_through v stack) = v.
Proof.
  revert x; induction stack as [|a stack IH]; intros x Hin;
    [by apply elem_of_nil in Hin|].
  cbn [take_through]. destruct (String.eqb_spec a v) as [->|Hne]; [done|].
  apply elem_of_cons in Hin as [->|Hin]; [done|].
  cbn [bottom]. by apply IH.
Qed.

Lemma take_through_edges (v x : string) (stack : list string) (e : Edge) :
  e ∈ stack_edges (x :: take_through v stack) -> e ∈ stack_edges (x :: stack).
Proof.
  revert x; induction stack as [|a stack IH]; intros x; [done|].
  cbn [take_through]. destruct (String.eqb_spec a v) as [->|Hne].
  - cbn. rewrite list_elem_of_singleton. intros ->. by left.
  - change (stack_edges (x :: a :: take_through v stack))
      with ((a, x) :: stack_edges (a :: take_through v stack)).
    change (stack_edges (x :: a :: stack)) with ((a, x) :: stack_edges (a :: stack)).
    rewrite !elem_of_cons. intros [->|He]; [by left|]. right. by apply IH.
Qed.

Lemma cycle_through_is_cycle (stack : list string) (v : string) :
  v ∈ stack ->
  (forall e, e ∈ stack_edges (v :: stack) -> e ∈ es) ->
  is_cycle es (cycle_through stack v).
Proof.
  intros Hin Hpath. unfold cycle_through. split; [|split].
  - destruct stack as [|a stack]; [by apply elem_of_nil in Hin|].
    cbn [take_through]. by destruct (String.eqb a v).
  - intros e He. apply Hpath. by eapply take_through_edges.
  - exists v. pose proof (stack_edges_walk v (take_through v stack)) as Hw.
    by rewrite take_through_bottom in Hw.
Qed.

Lemma dfs_each_sound visit stack :
  visit_sound es visit stack ->
  forall ws visited c,
    (forall w e, w ∈ ws -> e ∈ stack_edges (w :: stack) -> e ∈ es) ->
    dfs_each visit ws visited = Some (FoundCycle c) ->
    is_cycle es c.
Proof.
  intros Hvisit ws. induction ws as [|w ws IH]; intros visited c Hpath Hrun;
    cbn in Hrun; [discriminate|].
  destruct (visit visited w) as [[c1|vis1]|] eqn:Hw; try discriminate.
  - injection Hrun as <-. eapply Hvisit; [|exact Hw].
    intros e. apply Hpath. by left.
  - eapply IH; [|exact Hrun]. intros x e Hx. apply Hpath. by right.
Qed.

Lemma dfs_visit_sound depth stack :
  visit_sound es (dfs_visit depth es stack) stack.
Proof.
  revert stack. induction depth as [|depth IH]; intros stack visited v c Hpath Hrun;
    cbn in Hrun; [discriminate|].
  case_bool_decide as Hstack.
  - injection Hrun as <-. by apply cycle_through_is_cycle.
  - case_bool_decide as Hvis; [discriminate|].
    destruct (dfs_each _ _ visited) as [[c1|vis1]|] eqn:Heach; try discriminate.
    injection Hrun as <-.
    eapply (dfs_each_sound _ _ (IH (v :: stack))); [|exact Heach].
    intros w e Hw. change (stack_edges (w :: v :: stack))
      with ((v, w) :: stack_edges (v :: stack)).
    rewrite elem_of_cons. intros [->|He]; [|by apply Hpath].
    by apply successors_elem in Hw.
Qed.

End DetectedCycle.

(** ** DAG Builder: cycle resolution *)

Section CycleResolution.
Import Engine.

Lemma find_cycle_answers (g : DependencyGraph) : find_cycle g <> None.
Proof.
  unfold find_cycle.
  apply (dfs_each_answers (vertices g)).
  - apply (dfs_visit_answers (edges g) (vertices g)).
    + intros u w Huw. unfold vertices. apply elem_of_app. right.
      apply list_elem_of_In, in_map_iff. exists (u, w).
      split; [done | by apply list_elem_of_In].
    + constructor.
    + intros x Hx. by apply elem_of_nil in Hx.
    + cbn. lia.
  - intros w Hw. unfold vertices. apply elem_of_app. by left.
Qed.

Lemma find_cycle_NoCycle (g : DependencyGraph) (fin : list string) :
  find_cycle g = Some (NoCycle fin) ->
  finished (edges g) fin /\ forall a, a ∈ nodes g -> node_id a ∈ fin.
Proof.
  unfold find_cycle. intros Hrun.
  destruct (dfs_each_finishes (edges g) _ [] (dfs_visit_finishes (edges g) _ [])
              _ _ _ (finished_nil _) Hrun) as (Hfin & Hall & _ & _).
  split; [done|]. intros a Ha. apply Hall.
  apply list_elem_of_In, in_map. by apply list_elem_of_In.
Qed.

Lemma find_cycle_FoundCycle (g : DependencyGraph) (c : list Edge) :
  find_cycle g = Some (FoundCycle c) -> is_cycle (edges g) c.
Proof.
  unfold find_cycle. intros Hrun.
  eapply (dfs_each_sound (edges g) _ [] (dfs_visit_sound (edges g) _ [])); [|exact Hrun].
  intros w e _ He. cbn in He. by apply elem_of_nil in He.
Qed.

Lemma weakest_edge_min (score : string -> Q) (c : list Edge) :
  c <> [] ->
  exists e, weakest_edge score c = Some e
            /\ e ∈ c
            /\ forall e', e' ∈ c -> (score (snd e) <= score (snd e'))%Q.
Proof.
  induction c as [|e c IH]; [done|]. intros _. cbn [weakest_edge].
  destruct c as [|e1 c].
  - exists e. split; [done|]. split; [by left|].
    intros e' He'. apply list_elem_of_singleton in He' as ->. apply Qle_refl.
  - destruct IH as (m & -> & Hm & Hmin); [done|].
    destruct (Qle_bool (score (snd e)) (score (snd m))) eqn:Hle.
    + exists e. split; [done|]. split; [by left|].
      apply Qle_bool_iff in Hle. intros e' He'.
      apply elem_of_cons in He' as [->|He']; [apply Qle_refl|].
      eapply Qle_trans; [exact Hle | by apply Hmin].
    + exists m. split; [done|]. split; [by right|].
      intros e' He'. apply elem_of_cons in He' as [->|He']; [|by apply Hmin].
      apply Qlt_le_weak, Qnot_le_lt. intros Hc.
      apply Qle_bool_iff in Hc. congruence.
Qed.

Lemma remove_edge_length (e : Edge) (es : list Edge) :
  e ∈ es -> S (length (remove_edge e es)) = length es.
Proof.
  induction es as [|x es IH]; intros Hin; [by apply elem_of_nil in Hin|].
  cbn [remove_edge]. case_bool_decide as Hx; [done|].
  apply elem_of_cons in Hin as [->|Hin]; [done|]. cbn. by rewrite IH.
Qed.

Lemma remove_edge_sublist (e : Edge) (es : list Edge) :
  sublist (remove_edge e es) es.
Proof.
  induction es as [|x es IH]; [done|]. cbn [remove_edge].
  case_bool_decide; [by apply sublist_cons | by apply sublist_skip].
Qed.

(** One round of the loop: the weakest edge of the detected cycle goes, and
    nothing else changes. *)
Lemma break_cycle_spec (g : DependencyGraph) (c : list Edge) :
  find_cycle g = Some (FoundCycle c) ->
  exists e,
    weakest_edge (score_of (nodes g)) c = Some e
    /\ e ∈ c /\ e ∈ edges g
    /\ (forall e', e' ∈ c ->
          (score_of (nodes g) (snd e) <= score_of (nodes g) (snd e'))%Q)
    /\ nodes (break_cycle g c) = nodes g
    /\ edges (break_cycle g c) = remove_edge e (edges g)
    /\ S (length (edges (break_cycle g c))) = length (edges g).
Proof.
  intros Hfound. apply find_cycle_FoundCycle in Hfound as (Hne & Hsub & _).
  destruct (weakest_edge_min (score_of (nodes g)) c Hne) as (e & He & Hin & Hmin).
  exists e. unfold break_cycle. rewrite He. cbn.
  repeat split; auto. apply remove_edge_length. auto.
Qed.

Lemma resolve_loop_terminates (rounds : nat) (g : DependencyGraph) :
  (length (edges g) <= rounds)%nat ->
  exists g',
    resolve_loop rounds g = Some g'
    /\ nodes g' = nodes g
    /\ sublist (edges g') (edges g)
    /\ exists fin, find_cycle g' = Some (NoCycle fin).
Proof.
  revert g. induction rounds as [|rounds IH]; intros g Hlen.
  - cbn. destruct (find_cycle g) as [[c|fin]|] eqn:Hfind.
    + destruct (break_cycle_spec g c Hfind) as (e & _ & _ & _ & _ & _ & _ & Hl). lia.
    + exists g. eauto.
    + by destruct (find_cycle_answers g).
  - cbn. destruct (find_cycle g) as [[c|fin]|] eqn:Hfind.
    + destruct (break_cycle_spec g c Hfind) as (e & _ & _ & _ & _ & Hn & He & Hl).
      destruct (IH (break_cycle g c)) as (g' & Hrun & Hn' & Hsub & Hfin); [lia|].
      exists g'. split; [done|]. split; [congruence|]. split; [|done].
      etrans; [exact Hsub|]. rewrite He. apply remove_edge_sublist.
    + exists g. eauto.
    + by destruct (find_cycle_answers g).
Qed.

(** The bounds are not part of the result: a traversal that answers within
    some depth answers the same within any greater one, and so does the loop
    with more rounds. *)
Lemma dfs_each_mono (visit visit' : list string -> string -> option Outcome) :
  (forall visited w o, visit visited w = Some o -> visit' visited w = Some o) ->
  forall ws visited o,
    dfs_each visit ws visited = Some o -> dfs_each visit' ws visited = Some o.
Proof.
  intros Hmono ws. induction ws as [|w ws IH]; intros visited o Hrun; [done|].
  cbn in *. destruct (visit visited w) as [[c|vis1]|] eqn:Hw; [| |done].
  - by rewrite (Hmono _ _ _ Hw).
  - rewrite (Hmono _ _ _ Hw). by apply IH.
Qed.

Lemma dfs_visit_S (es : list Edge) (depth : nat) (stack visited : list string)
  (v : string) :
  dfs_visit (S depth) es stack visited v
  = if bool_decide (v ∈ stack) then Some (FoundCycle (cycle_through stack v))
    else if bool_decide (v ∈ visited) then Some (NoCycle visited)
    else match dfs_each (dfs_visit depth es (v :: stack)) (successors es v) visited with
         | Some (NoCycle visited') => Some (NoCycle (v :: visited'))
         | r => r
         end.
Proof. reflexivity. Qed.

Lemma dfs_visit_mono (es : list Edge) (depth : nat) :
  forall stack visited v o,
    dfs_visit depth es stack visited v = Some o ->
    dfs_visit (S depth) es stack visited v = Some o.
Proof.
  induction depth as [|depth IH]; intros stack visited v o Hrun; [done|].
  rewrite dfs_visit_S in Hrun. rewrite dfs_visit_S.
  case_bool_decide; [done|]. case_bool_decide; [done|].
  destruct (dfs_each (dfs_visit depth es (v :: stack)) (successors es v) visited)
    as [o1|] eqn:Heach; [|by destruct o].
  by rewrite (dfs_each_mono _ _ (IH (v :: stack)) _ _ _ Heach).
Qed.

Lemma resolve_loop_mono (rounds : nat) :
  forall g g',
    resolve_loop rounds g = Some g' -> resolve_loop (S rounds) g = Some g'.
Proof.
  induction rounds as [|rounds IH]; intros g g' Hrun.
  - cbn in *. by destruct (find_cycle g) as [[c|fin]|].
  - cbn [resolve_loop] in Hrun. cbn [resolve_loop].
    destruct (find_cycle g) as [[c|fin]|]; [|done|done]. by apply IH.
Qed.

Lemma resolve_loop_enough (g : DependencyGraph) (rounds : nat) :
  (length (edges g) <= rounds)%nat -> resolve_loop rounds g = resolve_cycles g.
Proof.
  unfold resolve_cycles. intros Hle.
  destruct (resolve_loop_terminates (length (edges g)) g) as (g' & Hrun & _); [done|].
  rewrite Hrun. clear -Hle Hrun.
  induction Hle as [|rounds _ IH]; [done | by apply resolve_loop_mono].
Qed.

Lemma resolve_cycles_terminates (g : DependencyGraph) :
  exists g',
    resolve_cycles g = Some g'
    /\ nodes g' = nodes g
    /\ sublist (edges g') (edges g)
    /\ exists fin, find_cycle g' = Some (NoCycle fin).
Proof. by apply resolve_loop_terminates. Qed.

End CycleResolution.

(** ** DAG Builder: topological order *)

Section TopologicalOrder.
Import Engine.

Lemma all_later_lookup {A : Type} (R : A -> A -> Prop) (l : list A) :
  all_later R l ->
  forall (i j : nat) a b,
    l !! i = Some a -> l !! j = Some b -> (i <= j)%nat -> R a b.
Proof.
  induction 1 as [|x l Hhead _ IH]; intros i j a b Hi Hj Hij.
  - by rewrite lookup_nil in Hi.
  - destruct i as [|i].
    + cbn in Hi. injection Hi as ->. apply Hhead. by eapply list_elem_of_lookup_2.
    + destruct j as [|j]; [lia|]. cbn in Hi, Hj. apply (IH i j); [done|done|lia].
Qed.

Lemma all_later_weaken {A : Type} (R R' : A -> A -> Prop) (l : list A) :
  (forall a b, R a b -> R' a b) -> all_later R l -> all_later R' l.
Proof.
  intros Hw. induction 1 as [|x l Hhead _ IH]; constructor; auto.
Qed.

Lemma all_later_sublist {A : Type} (R : A -> A -> Prop) (l k : list A) :
  sublist l k -> all_later R k -> all_later R l.
Proof.
  induction 1 as [|x l k Hsub IH|x l k Hsub IH]; intros Hk; [done| |].
  - inversion Hk as [|? ? Hhead Htail]; subst. constructor; [|by apply IH].
    intros b Hb. apply Hhead. apply elem_of_cons in Hb as [->|Hb]; [by left|].
    right. by eapply elem_of_sublist.
  - inversion Hk; subst. by apply IH.
Qed.

Lemma all_later_app {A : Type} (R : A -> A -> Prop) (l k : list A) :
  all_later R l -> all_later R k ->
  (forall a b, a ∈ l -> b ∈ k -> R a b) ->
  all_later R (l ++ k).
Proof.
  intros Hl Hk Hcross. induction Hl as [|x l Hhead _ IH]; [done|].
  cbn. constructor.
  - intros b Hb. rewrite app_comm_cons in Hb. apply elem_of_app in Hb as [Hb|Hb].
    + by apply Hhead.
    + apply Hcross; [by left|done].
  - apply IH. intros a b Ha. apply Hcross. by right.
Qed.

(** In index form: a prerequisite comes strictly first. *)
Lemma respects_lookup P es (l : list ScoredAction) :
  respects P es l ->
  forall (i j : nat) u d,
    l !! i = Some u -> l !! j = Some d ->
    edge es (node_id u) (node_id d) -> P u d ->
    (i < j)%nat.
Proof.
  intros Hresp i j u d Hi Hj Hedge HP.
  destruct (Nat.lt_ge_cases i j) as [|Hji]; [done|].
  destruct (all_later_lookup _ _ Hresp j i d u Hj Hi Hji HP Hedge).
Qed.

Lemma pick_Some {A : Type} (p : A -> bool) (l : list A) (a : A) (rest : list A) :
  pick p l = Some (a, rest) ->
  p a = true /\ l ≡ₚ a :: rest.
Proof.
  revert rest; induction l as [|x l IH]; intros rest Hpick; cbn in Hpick; [discriminate|].
  destruct (p x) eqn:Hx.
  - by injection Hpick as -> ->.
  - destruct (pick p l) as [[y rest']|]; [|discriminate].
    injection Hpick as -> <-. destruct (IH _ eq_refl) as [Hy Hperm].
    split; [done|]. rewrite Hperm. apply Permutation_swap.
Qed.

Lemma pick_finds {A : Type} (p : A -> bool) (l : list A) (a : A) :
  a ∈ l -> p a = true -> exists b rest, pick p l = Some (b, rest).
Proof.
  induction l as [|x l IH]; intros Hin Ha; [by apply elem_of_nil in Hin|].
  cbn. destruct (p x) eqn:Hx; [by eauto|].
  apply elem_of_cons in Hin as [->|Hin]; [congruence|].
  destruct (IH Hin Ha) as (b & rest & ->). eauto.
Qed.

Lemma ready_true (es : list Edge) (waiting : list ScoredAction) (a : ScoredAction) :
  ready es waiting a = true <->
  forall b, b ∈ waiting -> ~ edge es (node_id b) (node_id a).
Proof.
  unfold ready, edge. rewrite forallb_forall. split.
  - intros Hall b Hb Hedge.
    specialize (Hall _ (proj1 (list_elem_of_In _ _) Hedge)). cbn in Hall.
    rewrite String.eqb_refl in Hall. cbn in Hall.
    apply negb_true_iff, bool_decide_eq_false in Hall. apply Hall.
    apply list_elem_of_In, in_map. by apply list_elem_of_In.
  - intros Hnone [u w] He. apply list_elem_of_In in He. cbn.
    destruct (String.eqb_spec w (node_id a)) as [->|Hne]; [|done]. cbn.
    apply negb_true_iff, bool_decide_eq_false. intros Hu.
    apply list_elem_of_In, in_map_iff in Hu as (b & <- & Hb).
    apply (Hnone b); [by apply list_elem_of_In | done].
Qed.

Lemma finished_closed (es : list Edge) (l : list string) (u w : string) :
  finished es l -> u ∈ l -> edge es u w -> w ∈ l.
Proof.
  induction 1 as [|v l Hv Hsucc _ IH]; intros Hu Hedge; [by apply elem_of_nil in Hu|].
  right. apply elem_of_cons in Hu as [->|Hu]; auto.
Qed.

(** Among waiting nodes that all finished, one waits for nobody. *)
Lemma exists_ready (es : list Edge) (fin : list string) :
  finished es fin ->
  forall waiting : list ScoredAction,
    waiting <> [] ->
    (forall a, a ∈ waiting -> node_id a ∈ fin) ->
    exists a, a ∈ waiting /\ ready es waiting a = true.
Proof.
  induction 1 as [|v l Hv Hsucc Hfin IH]; intros waiting Hne Hall.
  - destruct waiting as [|a ?]; [done|].
    specialize (Hall a ltac:(left)). by apply elem_of_nil in Hall.
  - destruct (decide (v ∈ map node_id waiting)) as [Hin|Hout].
    + apply list_elem_of_In, in_map_iff in Hin as (a & <- & Ha).
      apply list_elem_of_In in Ha.
      exists a. split; [done|]. apply ready_true. intros b Hb Hedge.
      specialize (Hall b Hb). apply elem_of_cons in Hall as [Heq|Hl].
      * rewrite Heq in Hedge. by apply Hv, Hsucc.
      * apply Hv. by eapply finished_closed.
    + apply IH; [done|]. intros a Ha.
      specialize (Hall a Ha). apply elem_of_cons in Hall as [Heq|Hl]; [|done].
      destruct Hout. rewrite <- Heq.
      apply list_elem_of_In, in_map. by apply list_elem_of_In.
Qed.

Lemma topo_loop_succeeds (es : list Edge) (fin : list string) :
  finished es fin ->
  forall (steps : nat) (waiting : list ScoredAction),
    (forall a, a ∈ waiting -> node_id a ∈ fin) ->
    (length waiting <= steps)%nat ->
    exists order, topo_loop steps es waiting = Some order.
Proof.
  intros Hfin steps. induction steps as [|steps IH]; intros waiting Hall Hlen.
  - destruct waiting; [by exists [] | cbn in Hlen; lia].
  - destruct waiting as [|x waiting']; [by exists []|].
    remember (x :: waiting') as waiting eqn:Hw.
    destruct (exists_ready es fin Hfin waiting) as (a & Ha & Hready);
      [by subst | done |].
    destruct (pick_finds (ready es waiting) waiting a Ha Hready) as (b & rest & Hpick).
    destruct (pick_Some _ _ _ _ Hpick) as [_ Hperm].
    destruct (IH rest) as (order & Horder).
    + intros c Hc. apply Hall. rewrite Hperm. by right.
    + apply Permutation_length in Hperm. cbn in Hperm. lia.
    + exists (b :: order). subst waiting. cbn [topo_loop].
      cbn [topo_loop] in Hpick. rewrite Hpick, Horder. done.
Qed.

Lemma topo_loop_order (es : list Edge) (steps : nat) :
  forall (waiting order : list ScoredAction),
    topo_loop steps es waiting = Some order ->
    order ≡ₚ waiting /\ respects any_pair es order.
Proof.
  induction steps as [|steps IH]; intros waiting order Hrun.
  - destruct waiting; [|discriminate]. injection Hrun as <-. split; [done|constructor].
  - destruct waiting as [|x waiting']; [injection Hrun as <-; split; [done|constructor]|].
    remember (x :: waiting') as waiting eqn:Hw. 
    assert (Hrun' : match pick (ready es waiting) waiting with
                    | Some (a, rest) =>
                        match topo_loop steps es rest with
                        | Some order => Some (a :: order)
                        | None => None
                        end
                    | None => None
                    end = Some order) by (subst waiting; exact Hrun).
    clear Hrun. destruct (pick _ waiting) as [[a rest]|] eqn:Hpick; [|discriminate].
    destruct (topo_loop steps es rest) as [order'|] eqn:Hrest; [|discriminate].
    injection Hrun' as <-. destruct (IH _ _ Hrest) as [Hperm Hresp].
    destruct (pick_Some _ _ _ _ Hpick) as [Hready Hperm'].
    split; [by rewrite Hperm' , Hperm|].
    constructor; [|done]. intros b Hb _.
    apply (proj1 (ready_true es waiting a) Hready).
    rewrite Hperm', <- Hperm. done.
Qed.

Lemma insert_by_score_perm (a : ScoredAction) (l : list ScoredAction) :
  insert_by_score a l ≡ₚ a :: l.
Proof.
  induction l as [|b l IH]; [done|]. cbn.
  destruct (Qle_bool (total b) (total a)); [done|].
  rewrite IH. apply Permutation_swap.
Qed.

Lemma by_priority_perm (ns : list ScoredAction) : by_priority ns ≡ₚ ns.
Proof.
  induction ns as [|a ns IH]; [done|]. cbn.
  by rewrite insert_by_score_perm, IH.
Qed.

(** On a graph in which the traversal finds no cycle the sort places every
    node, each after its prerequisites. *)
Lemma topological_sort_succeeds (g : DependencyGraph) (fin : list string) :
  find_cycle g = Some (NoCycle fin) ->
  exists order,
    topological_sort g = Some order
    /\ order ≡ₚ nodes g
    /\ respects any_pair (edges g) order.
Proof.
  intros Hfind. apply find_cycle_NoCycle in Hfind as [Hfin Hall].
  unfold topological_sort.
  destruct (topo_loop_succeeds (edges g) fin Hfin (length (nodes g))
              (by_priority (nodes g))) as (order & Horder).
  - intros a Ha. apply Hall. by rewrite <- by_priority_perm.
  - by rewrite by_priority_perm.
  - exists order. split; [done|].
    destruct (topo_loop_order _ _ _ _ Horder) as [Hperm Hresp].
    split; [|done]. by rewrite Hperm, by_priority_perm.
Qed.

End TopologicalOrder.

(** ** DAG Builder: the graph of a candidate set *)

Section CandidateGraph.
Import Engine.

Lemma fold_add_edge_elem (l acc : list Edge) (e : Edge) :
  e ∈ fold_left add_edge l acc <-> e ∈ acc \/ e ∈ l.
Proof.
  revert acc; induction l as [|x l IH]; intros acc; cbn.
  - rewrite elem_of_nil. tauto.
  - rewrite IH, elem_of_cons. unfold add_edge. case_bool_decide as Hx.
    + split; [tauto|]. intros [?|[->|?]]; tauto.
    + rewrite elem_of_app, list_elem_of_singleton. tauto.
Qed.

Lemma prerequisite_edges_elem (cands : list ScoredAction) (d : string)
  (ps : list string) (e : Edge) :
  e ∈ prerequisite_edges cands d ps <->
  exists p u, p ∈ ps /\ resolve_prerequisite cands p = Some u /\ e = (u, d).
Proof.
  induction ps as [|p ps IH]; cbn.
  - rewrite elem_of_nil. split; [done|]. intros (p & u & Hp & _).
    by apply elem_of_nil in Hp.
  - destruct (resolve_prerequisite cands p) as [u|] eqn:Hres.
    + rewrite elem_of_cons, IH. split.
      * intros [->|(q & w & Hq & Hw & ->)].
        -- exists p, u. split; [by left|done].
        -- exists q, w. split; [by right|done].
      * intros (q & w & Hq & Hw & ->). apply elem_of_cons in Hq as [->|Hq].
        -- left. congruence.
        -- right. by exists q, w.
    + rewrite IH. split.
      * intros (q & w & Hq & Hw & ->). exists q, w. split; [by right|done].
      * intros (q & w & Hq & Hw & ->). apply elem_of_cons in Hq as [->|Hq];
          [congruence|]. by exists q, w.
Qed.

Lemma resolve_prerequisite_Some (cands : list ScoredAction) (p u : string) :
  resolve_prerequisite cands p = Some u ->
  exists c, c ∈ cands /\ name (action c) = p /\ node_id c = u.
Proof.
  unfold resolve_prerequisite. destruct (find _ cands) as [c|] eqn:Hf; [|done].
  intros [= <-]. apply find_some in Hf as [Hin Hn]. exists c.
  split; [by apply list_elem_of_In|]. split; [by apply String.eqb_eq | done].
Qed.

(** The edges of the built graph: one per declared prerequisite that names
    a candidate, from that candidate to the declaring action. *)
Lemma build_graph_edges (cands : list ScoredAction) (u d : string) :
  edge (edges (build_graph cands)) u d <->
  exists a p,
    a ∈ cands /\ node_id a = d
    /\ p ∈ prerequisites (action a)
    /\ resolve_prerequisite cands p = Some u.
Proof.
  unfold edge, build_graph. cbn [edges].
  rewrite fold_add_edge_elem, elem_of_nil, list_elem_of_In, in_flat_map. split.
  - intros [[]|(a & Ha & He)]. apply list_elem_of_In in Ha, He.
    apply prerequisite_edges_elem in He as (p & w & Hp & Hw & [= -> ->]).
    by exists a, p.
  - intros (a & p & Ha & <- & Hp & Hres). right. exists a.
    split; [by apply list_elem_of_In|].
    apply list_elem_of_In, prerequisite_edges_elem. by exists p, u.
Qed.

Lemma build_graph_endpoints (cands : list ScoredAction) (u d : string) :
  edge (edges (build_graph cands)) u d ->
  (exists a, a ∈ cands /\ node_id a = u) /\ (exists b, b ∈ cands /\ node_id b = d).
Proof.
  intros (a & p & Ha & Hd & Hp & Hres)%build_graph_edges.
  apply resolve_prerequisite_Some in Hres as (c & Hc & _ & Hu).
  split; [by exists c | by exists a].
Qed.

Lemma finished_tc_closed (es : list Edge) (l : list string) (u v : string) :
  finished es l -> tc (edge es) u v -> u ∈ l -> v ∈ l.
Proof.
  intros Hfin Htc. induction Htc as [u v Huv|u w v Huw _ IH]; intros Hu.
  - by eapply finished_closed.
  - apply IH. by eapply finished_closed.
Qed.

Lemma finished_acyclic (es : list Edge) (l : list string) (v : string) :
  finished es l -> v ∈ l -> ~ tc (edge es) v v.
Proof.
  induction 1 as [|x l Hx Hsucc Hfin IH]; intros Hv Hloop;
    [by apply elem_of_nil in Hv|].
  apply elem_of_cons in Hv as [->|Hv]; [|by apply IH].
  apply Hx. inversion Hloop as [? ? Hxx|? w ? Hxw Hwx]; subst.
  - by apply Hsucc.
  - eapply finished_tc_closed; [exact Hfin|exact Hwx|]. by apply Hsucc.
Qed.

Lemma tc_first_step {A : Type} (R : relation A) (x y : A) :
  tc R x y -> exists w, R x w.
Proof. inversion 1; eauto. Qed.

Lemma tc_edge_sublist (es es' : list Edge) (u v : string) :
  sublist es' es -> tc (edge es') u v -> tc (edge es) u v.
Proof.
  intros Hsub. apply (tc_congruence (fun x => x)).
  intros a b Hab. unfold edge in *. by eapply elem_of_sublist.
Qed.

(** What resolution leaves of a candidate set's graph. *)
Lemma resolved_graph (cands : list ScoredAction) :
  exists g fin order,
    resolve_cycles (build_graph cands) = Some g
    /\ nodes g = cands
    /\ sublist (edges g) (edges (build_graph cands))
    /\ find_cycle g = Some (NoCycle fin)
    /\ topological_sort g = Some order
    /\ order ≡ₚ cands
    /\ respects any_pair (edges g) order.
Proof.
  destruct (resolve_cycles_terminates (build_graph cands))
    as (g & Hres & Hnodes & Hsub & fin & Hfind).
  destruct (topological_sort_succeeds g fin Hfind) as (order & Hsort & Hperm & Hresp).
  exists g, fin, order. rewrite Hnodes in Hperm. done.
Qed.

End CandidateGraph.

(** ** Recommendation Grouper *)

Section Grouper.
Import Engine.

Lemma List_filter_sublist {A : Type} (p : A -> bool) (l : list A) :
  sublist (List.filter p l) l.
Proof.
  induction l as [|x l IH]; [done|]. cbn.
  destruct (p x); [by apply sublist_skip | by apply sublist_cons].
Qed.

Lemma diversity_filter_sublist (cap : nat) (earlier l : list ScoredAction) :
  sublist (diversity_filter cap earlier l) l.
Proof.
  revert earlier; induction l as [|a l IH]; intros earlier; [done|].
  cbn [diversity_filter]. cbv zeta.
  destruct (_ <? cap)%nat; [by apply sublist_skip | by apply sublist_cons].
Qed.

Lemma bucket_sublist (cap : nat) (order : list ScoredAction) (h : Horizon) :
  sublist (bucket cap order h) order.
Proof.
  unfold bucket. etrans; [apply diversity_filter_sublist | apply List_filter_sublist].
Qed.

Lemma horizon_rank_inj (h h' : Horizon) : horizon_rank h = horizon_rank h' -> h = h'.
Proof. by destruct h, h'. Qed.

Lemma bucket_horizon (cap : nat) (order : list ScoredAction) (h : Horizon)
  (a : ScoredAction) :
  a ∈ bucket cap order h -> horizon (action a) = h.
Proof.
  unfold bucket. intros Ha.
  eapply elem_of_sublist in Ha; [|apply diversity_filter_sublist].
  apply list_elem_of_In, filter_In in Ha as [_ Hh].
  unfold in_horizon in Hh. apply Nat.eqb_eq in Hh. by apply horizon_rank_inj.
Qed.

Lemma bucket_by_horizon (cap : nat) (order : list ScoredAction) (h : Horizon) :
  forall l, sublist l (bucket cap order h) -> by_horizon l.
Proof.
  intros l Hsub. assert (Hall : forall a, a ∈ l -> horizon (action a) = h).
  { intros a Ha. eapply bucket_horizon, elem_of_sublist; done. }
  clear Hsub. induction l as [|x l IH]; constructor.
  - intros b Hb. unfold not_later. rewrite (Hall x), (Hall b); [done|done|by left].
  - apply IH. intros a Ha. apply Hall. by right.
Qed.

(** The concatenation of the four buckets never goes back in horizon. *)
Lemma sequential_actions_by_horizon (cap : nat) (order : list ScoredAction) :
  by_horizon (sequential_actions (group_by_horizon cap order)).
Proof.
  unfold sequential_actions, group_by_horizon. cbn.
  repeat apply all_later_app;
    try (by eapply bucket_by_horizon);
    intros a b Ha Hb; unfold not_later;
    repeat (apply elem_of_app in Hb as [Hb|Hb]);
    apply bucket_horizon in Ha, Hb; rewrite Ha, Hb; cbn; lia.
Qed.

(** Within the concatenation a prerequisite never follows a dependent whose
    horizon is not earlier than its own. *)
Lemma sequential_actions_respects (cap : nat) (es : list Edge)
  (order : list ScoredAction) :
  respects any_pair es order ->
  respects not_later es (sequential_actions (group_by_horizon cap order)).
Proof.
  intros Hresp.
  assert (Hb : forall h, respects not_later es (bucket cap order h)).
  { intros h. eapply all_later_sublist; [apply bucket_sublist|].
    eapply all_later_weaken; [|exact Hresp]. cbn. intros a b Hab _. by apply Hab. }
  unfold sequential_actions, group_by_horizon. cbn.
  repeat apply all_later_app; try apply Hb;
    intros a b Ha Hin Hrank; exfalso; unfold not_later in Hrank;
    repeat (apply elem_of_app in Hin as [Hin|Hin]);
    apply bucket_horizon in Ha, Hin; rewrite Ha, Hin in Hrank; cbn in Hrank; lia.
Qed.

End Grouper.

(** ** DAG Builder and Grouper: the stated properties *)

Section OrderingProperties.
Import Engine.

Lemma back_walk_tc (es : list Edge) (c : list Edge) (x y : string) :
  (forall e, e ∈ c -> e ∈ es) -> c <> [] ->
  back_walk c x y -> tc (edge es) y x.
Proof.
  revert x; induction c as [|[a b] c IH]; intros x Hin Hne Hwalk; [done|].
  cbn in Hwalk. destruct Hwalk as [-> Hwalk].
  assert (Hab : edge es a x) by (apply Hin; by left).
  destruct c as [|e c].
  - cbn in Hwalk. subst. by apply tc_once.
  - eapply tc_r; [|exact Hab]. apply IH; [|done|done].
    intros e' He'. apply Hin. by right.
Qed.

(** C5.  For every candidate set, cycle resolution returns a graph on the
    same nodes with no cycle, and the topological sort of that graph
    succeeds and places every node. *)
Theorem dag_acyclic_after_resolution (cands : list ScoredAction) :
  exists g order,
    resolve_cycles (build_graph cands) = Some g
    /\ nodes g = cands
    /\ (forall v, ~ tc (edge (edges g)) v v)
    /\ (forall c, ~ is_cycle (edges g) c)
    /\ topological_sort g = Some order
    /\ order ≡ₚ cands.
Proof.
  destruct (resolved_graph cands)
    as (g & fin & order & Hres & Hnodes & Hsub & Hfind & Hsort & Hperm & Hresp).
  assert (Hacyclic : forall v, ~ tc (edge (edges g)) v v).
  { intros v Hloop.
    destruct (find_cycle_NoCycle g fin Hfind) as [Hfin Hall].
    apply (finished_acyclic _ _ v Hfin); [|done].
    destruct (tc_first_step _ _ _ Hloop) as [w Hvw].
    assert (Hvw' : edge (edges (build_graph cands)) v w)
      by (unfold edge in *; by eapply elem_of_sublist).
    apply build_graph_endpoints in Hvw' as [(a & Ha & <-) _].
    apply Hall. by rewrite Hnodes. }
  exists g, order. repeat split; try done.
  intros c (Hne & Hin & v & Hwalk). apply (Hacyclic v).
  eapply back_walk_tc; done.
Qed.

(** C7.  The traversal always answers; when it reports a cycle, that is a
    closed walk along edges of the graph, and breaking it removes exactly
    one edge, an edge of that cycle whose head node has the lowest total
    score among the heads of the cycle's edges, and leaves the nodes alone,
    so the edge count drops by one; and the loop of detection and break
    ends within as many rounds as the graph has edges (more rounds change
    nothing), with a graph in which no cycle is found, after removing only
    edges. *)
Theorem cycle_resolution_terminates (g : DependencyGraph) :
  (exists outcome, find_cycle g = Some outcome)
  /\ (forall c,
        find_cycle g = Some (FoundCycle c) ->
        is_cycle (edges g) c
        /\ exists e,
             weakest_edge (score_of (nodes g)) c = Some e
             /\ e ∈ c /\ e ∈ edges g
             /\ (forall e', e' ∈ c ->
                   (score_of (nodes g) (snd e) <= score_of (nodes g) (snd e'))%Q)
             /\ nodes (break_cycle g c) = nodes g
             /\ edges (break_cycle g c) = remove_edge e (edges g)
             /\ S (length (edges (break_cycle g c))) = length (edges g))
  /\ (exists g' fin,
        resolve_cycles g = Some g'
        /\ (forall rounds, (length (edges g) <= rounds)%nat ->
                           resolve_loop rounds g = Some g')
        /\ nodes g' = nodes g
        /\ sublist (edges g') (edges g)
        /\ find_cycle g' = Some (NoCycle fin)).
Proof.
  split; [|split].
  - pose proof (find_cycle_answers g). destruct (find_cycle g); [eauto|done].
  - intros c Hc. split; [by apply find_cycle_FoundCycle | by apply break_cycle_spec].
  - destruct (resolve_cycles_terminates g) as (g' & Hres & Hn & Hsub & fin & Hfin).
    exists g', fin. repeat split; try done.
    intros rounds Hle. by rewrite resolve_loop_enough.
Qed.

Lemma cycle_resolution_terminates_witness :
  find_cycle (build_graph cyclic_candidates)
  = Some (FoundCycle [("b", "a"); ("a", "b")])
  /\ (exists e,
        weakest_edge (score_of cyclic_candidates) [("b", "a"); ("a", "b")] = Some e
        /\ S (length (edges (break_cycle (build_graph cyclic_candidates)
                               [("b", "a"); ("a", "b")])))
           = length (edges (build_graph cyclic_candidates))).
Proof.
  assert (Hfound : find_cycle (build_graph cyclic_candidates)
                   = Some (FoundCycle [("b", "a"); ("a", "b")]))
    by (vm_compute; reflexivity).
  split; [exact Hfound|].
  destruct (cycle_resolution_terminates (build_graph cyclic_candidates))
    as (_ & Hbreak & _).
  destruct (Hbreak _ Hfound) as (_ & e & He & _ & _ & _ & _ & _ & Hlen).
  exists e. split; [exact He | exact Hlen].
Defined.

(** The README scenario: of the two edges of the injected cycle exactly one
    is removed, the one into the lower-scoring action. *)
Example cyclic_candidates_resolved :
  (edges <$> resolve_cycles (build_graph cyclic_candidates)) = Some [("b", "a")]
  /\ (map node_id <$>
        (resolve_cycles (build_graph cyclic_candidates) ≫= topological_sort))
     = Some ["b"; "a"].
Proof. split; vm_compute; reflexivity. Qed.

End OrderingProperties.

(** ** Engine construction and the orchestrator *)

Section Orchestration.
Import Engine.

Context {Profile Query Context : Type} {components : Components Profile Query Context}.

Lemma new_engine_inr (cat : list Action) (w : ScoringWeights) (cap : nat)
  (e : AscendEngine) :
  new_engine cat w cap = inr e ->
  (weight_sum w == 1)%Q /\ scoring_weights e = w /\ max_per_category e = cap
  /\ first_duplicate (map id cat) = None.
Proof.
  unfold new_engine. destruct (Qeq_bool (weight_sum w) 1) eqn:Hsum; [|done]. cbn.
  destruct (first_duplicate (map id cat)); [done|]. intros [= <-].
  split; [by apply Qeq_bool_iff|done].
Qed.

Lemma ordered_total (e : AscendEngine) (ctx : Context) :
  exists g order, ordered e ctx = Some (g, order).
Proof.
  unfold ordered.
  destruct (resolved_graph (map (score_action (scoring_weights e) ctx) (candidates e ctx)))
    as (g & fin & order & -> & _ & _ & _ & Hsort & _).
  exists g, order. cbn. by rewrite Hsort.
Qed.

Lemma process_total (e : AscendEngine) (clock : Q * Q) (profile : Profile)
  (query : Query) :
  exists r, process e clock profile query = Some r.
Proof.
  unfold process.
  destruct (ordered_total e (normalize profile query)) as (g & order & ->).
  cbn. eauto.
Qed.

(** The result of a request shows the grouped order as it is:
    personalization changes neither membership, order nor score. *)
Lemma process_result (e : AscendEngine) (clock : Q * Q) (profile : Profile)
  (query : Query) (r : EngineResult Profile) :
  process e clock profile query = Some r ->
  exists g order,
    ordered e (normalize profile query) = Some (g, order)
    /\ map scored (short_term r) = bucket (max_per_category e) order ShortTerm
    /\ map scored (medium_term r) = bucket (max_per_category e) order MediumTerm
    /\ map scored (long_term r) = bucket (max_per_category e) order LongTerm
    /\ map scored (extended_term r) = bucket (max_per_category e) order ExtendedTerm
    /\ sequential_path r
       = map (fun a => node_id (scored a))
           (short_term r ++ medium_term r ++ long_term r ++ extended_term r).
Proof.
  unfold process.
  destruct (ordered_total e (normalize profile query)) as (g & order & ->).
  cbn. intros [= <-]. exists g, order. cbn.
  rewrite !map_map, !map_id. repeat split.
  unfold sequential_path_of, sequential_actions. cbn.
  by rewrite !map_app, !map_map.
Qed.

(** C4.  An engine is constructed only from a weight set that sums to 1, and
    it scores with exactly that set, so the weights of every constructed
    engine sum to 1; a weight set with any other sum makes the construction
    fail with a configuration error; and no request fails afterwards:
    [process] returns a result for every engine, profile and query. *)
Theorem weights_validated_at_construction :
  (forall cat w cap e,
      new_engine cat w cap = inr e ->
      (weight_sum (scoring_weights e) == 1)%Q /\ scoring_weights e = w)
  /\ (forall cat w cap,
        ~ (weight_sum w == 1)%Q -> new_engine cat w cap = inl InvalidWeights)
  /\ (weight_sum short_weights == 97 # 100)%Q
  /\ (forall cat cap, new_engine cat short_weights cap = inl InvalidWeights)
  /\ (forall (e : AscendEngine) clock (profile : Profile) (query : Query),
        exists r, process e clock profile query = Some r).
Proof.
  split; [|split; [|split; [|split]]].
  - intros cat w cap e He. apply new_engine_inr in He as (Hsum & -> & _). done.
  - intros cat w cap Hsum. unfold new_engine.
    destruct (Qeq_bool (weight_sum w) 1) eqn:Hb; [|done].
    by apply Qeq_bool_iff in Hb.
  - reflexivity.
  - reflexivity.
  - apply process_total.
Qed.

End Orchestration.

Section OrchestrationSamples.
Import Engine.

Lemma weights_validated_at_construction_witness :
  match new_engine sample_catalog readme_weights 2 with
  | inr e => (weight_sum (scoring_weights e) == 1)%Q
  | inl _ => False
  end
  /\ ~ (weight_sum short_weights == 1)%Q
  /\ new_engine sample_catalog short_weights 2 = inl InvalidWeights.
Proof.
  destruct (@weights_validated_at_construction nat RiskLevel (nat * RiskLevel)
              sample_components) as (Hok & Hbad & _).
  assert (Hshort : ~ (weight_sum short_weights == 1)%Q) by (vm_compute; discriminate).
  split; [|split; [exact Hshort | exact (Hbad sample_catalog short_weights 2%nat Hshort)]].
  destruct (new_engine sample_catalog readme_weights 2) as [err|e] eqn:He.
  - vm_compute in He. discriminate.
  - exact (proj1 (Hok _ _ _ _ He)).
Defined.

(** The sample catalog: the undeclared prerequisite is dropped with a
    warning, the budget comes before the fund that needs it, and the buckets
    are concatenated into the sequential path. *)
Example sample_process :
  match new_engine sample_catalog readme_weights 2 with
  | inr e =>
      warnings e = ["Win The Lottery"]
      /\ (sequential_path
            <$> @process _ _ _ sample_components e (0 # 1, 45 # 1) 0%nat Low)
         = Some ["action_002"; "action_001"; "action_003"]
  | inl _ => False
  end.
Proof. vm_compute. split; reflexivity. Qed.

End OrchestrationSamples.

(** ** StageSection: the expanded nodes *)

Section ExpandedNodes.
Import VisualPage.

(** X1.  Clicking the expand button of [nodeId] flips whether [nodeId] is
    expanded and leaves every other node as it was. *)
Theorem handleNodeExpand_flips (prev : list string) (nodeId id : string) :
  id ∈ handleNodeExpand prev nodeId <->
  (id = nodeId /\ nodeId ∉ prev) \/ (id <> nodeId /\ id ∈ prev).
Proof.
  unfold handleNodeExpand. case_bool_decide as Hin.
  - rewrite list_elem_of_filter. split.
    + intros [Hne Hid]. by right.
    + intros [[-> Hout]|[Hne Hid]]; [done|by split].
  - rewrite elem_of_app, list_elem_of_singleton. split.
    + intros [Hid| ->]; [|by left]. right. split; [|done]. by intros ->.
    + intros [[-> _]|[_ Hid]]; [by right|by left].
Qed.

Lemma handleNodeExpand_NoDup (prev : list string) (nodeId : string) :
  NoDup prev -> NoDup (handleNodeExpand prev nodeId).
Proof.
  intros Hnd. unfold handleNodeExpand. case_bool_decide as Hin.
  - by apply NoDup_filter.
  - apply NoDup_app. split; [done|]. split; [|apply NoDup_singleton].
    intros x Hx ->%list_elem_of_singleton. done.
Qed.

(** X2.  Whatever sequence of expand buttons is clicked, starting with nothing
    expanded, no node id is ever listed twice; and clicking one button twice
    in a row gives back the same expanded nodes, up to their order. *)
Theorem expandedNodes_no_duplicates (clicks : list string) (nodeId : string) :
  let expandedNodes := fold_left handleNodeExpand clicks [] in
  NoDup expandedNodes
  /\ handleNodeExpand (handleNodeExpand expandedNodes nodeId) nodeId ≡ₚ expandedNodes.
Proof.
  cbv zeta.
  assert (Hnd : NoDup (fold_left handleNodeExpand clicks [])).
  { assert (Hgen : forall acc, NoDup acc -> NoDup (fold_left handleNodeExpand clicks acc)).
    { induction clicks as [|c clicks IH]; intros acc Hacc; [done|].
      cbn. by apply IH, handleNodeExpand_NoDup. }
    apply Hgen. constructor. }
  split; [done|].
  apply NoDup_Permutation.
  - by do 2 apply handleNodeExpand_NoDup.
  - done.
  - intros id. rewrite !handleNodeExpand_flips.
    destruct (decide (id = nodeId)) as [->|Hne].
    + destruct (decide (nodeId ∈ fold_left handleNodeExpand clicks [])); split.
      * intros [[_ Hout]|[? _]]; [|done]. done.
      * intros _. left. split; [done|]. intros [[_ Hout]|[? _]]; done.
      * intros [[_ Hout]|[? _]]; [|done]. destruct Hout. by left.
      * done.
    + split.
      * intros [[? _]|[_ [[? _]|[_ ?]]]]; done.
      * intros Hin. right. split; [done|]. by right.
Qed.

End ExpandedNodes.

(** ** NodeGraph: the layout *)

Section Layout.
Import VisualPage.

Lemma calculatePositions_lookup (nodes : list Node.t) (i : nat) (p : Position) :
  calculatePositions nodes !! i = Some p <->
  (i < length nodes)%nat
  /\ p = {| x := 20 + (if Z.of_nat i mod 2 =? 0 then 0 else 40);
            y := 20 + Z.of_nat i * 80; width := 280; height := 50 |}.
Proof.
  unfold calculatePositions. cbv zeta. rewrite list_lookup_imap_Some. split.
  - intros (node & Hn & ->). split; [by eapply lookup_lt_Some|done].
  - intros [Hlt ->]. destruct (lookup_lt_is_Some_2 nodes i Hlt) as [node Hn].
    by exists node.
Qed.

Lemma calculatePositions_length (nodes : list Node.t) :
  length (calculatePositions nodes) = length nodes.
Proof. apply length_imap. Qed.

(** X3.  The rectangles of the layout are 280 by 50, start at x = 20 or 60, and
    lie in rows that do not overlap: a later node starts at least 30 below
    the bottom of an earlier one. *)
Theorem calculatePositions_rows_apart (nodes : list Node.t) (i j : nat)
  (p q : Position) :
  calculatePositions nodes !! i = Some p ->
  calculatePositions nodes !! j = Some q ->
  (i < j)%nat ->
  y p + height p + 30 <= y q
  /\ width p = 280 /\ height p = 50
  /\ (x p = 20 \/ x p = 60)
  /\ y p = 20 + 80 * Z.of_nat i.
Proof.
  intros [_ ->]%calculatePositions_lookup [_ ->]%calculatePositions_lookup Hij. cbn.
  repeat split; try lia. destruct (_ =? 0); [left|right]; lia.
Qed.

Lemma calculatePositions_rows_apart_witness :
  (0 < 2)%nat
  /\ y {| x := 20; y := 20; width := 280; height := 50 |}
     + height {| x := 20; y := 20; width := 280; height := 50 |} + 30
     <= y {| x := 20; y := 180; width := 280; height := 50 |}.
Proof.
  split; [lia|].
  apply (calculatePositions_rows_apart
           (transformRecommendations plain_bucket plain_bucket) 0 2);
    [reflexivity|reflexivity|lia].
Defined.

Lemma Math_max_ge (first : Z) (others : list Z) :
  first <= Math_max first others
  /\ forall v, v ∈ others -> v <= Math_max first others.
Proof.
  unfold Math_max. revert first. induction others as [|o others IH]; intros first; cbn.
  - split; [lia|]. intros v Hv. by apply elem_of_nil in Hv.
  - destruct (IH (Z.max first o)) as [Hfirst Hall]. split; [lia|].
    intros v Hv. apply elem_of_cons in Hv as [->|Hv]; [lia|by apply Hall].
Qed.

(** X4.  The minimal size given to the container reaches 50 beyond the right
    edge of every rectangle it is computed from and 150 below the top of
    each, which leaves 100 under the rectangles of the layout, 50 high. *)
Theorem container_encloses_nodes (nodePositions : list Position) (p : Position) :
  p ∈ nodePositions ->
  x p + width p + 50 <= maxWidth nodePositions
  /\ y p + 150 <= maxHeight nodePositions.
Proof.
  destruct nodePositions as [|p0 ps]; [by intros ?%elem_of_nil|].
  intros Hp. cbn [maxWidth maxHeight].
  destruct (Math_max_ge (x p0 + width p0) ((fun q => x q + width q) <$> ps)) as [Hw0 Hw].
  destruct (Math_max_ge (y p0) (y <$> ps)) as [Hh0 Hh].
  apply elem_of_cons in Hp as [->|Hp]; [lia|].
  specialize (Hw (x p + width p) ltac:(apply list_elem_of_fmap; by exists p)).
  specialize (Hh (y p) ltac:(apply list_elem_of_fmap; by exists p)).
  lia.
Qed.

Lemma container_encloses_nodes_witness :
  x {| x := 60; y := 100; width := 280; height := 50 |}
  + width {| x := 60; y := 100; width := 280; height := 50 |} + 50
  <= maxWidth (calculatePositions (transformRecommendations plain_bucket plain_bucket)).
Proof.
  apply (container_encloses_nodes
           (calculatePositions (transformRecommendations plain_bucket plain_bucket))).
  right. left.
Defined.

End Layout.

(** ** Connections *)

Section ConnectionLines.
Import VisualPage.

Lemma findIndex_range (nodes : list Node.t) (nodeId : string) :
  findIndex nodes nodeId = -1
  \/ 0 <= findIndex nodes nodeId < Z.of_nat (length nodes).
Proof.
  induction nodes as [|n nodes IH]; [by left|]. cbn [findIndex length].
  destruct (String.eqb (Node.id n) nodeId); [right; lia|]. cbv zeta.
  destruct (Z.ltb_spec (findIndex nodes nodeId) 0); [by left|right; lia].
Qed.

(** The index found is that of the first node with the id. *)
Lemma findIndex_found (nodes : list Node.t) (nodeId : string) :
  nodeId ∈ Node.id <$> nodes ->
  exists (k : nat) n,
    findIndex nodes nodeId = Z.of_nat k
    /\ nodes !! k = Some n /\ Node.id n = nodeId
    /\ forall (j : nat) m, (j < k)%nat -> nodes !! j = Some m -> Node.id m <> nodeId.
Proof.
  induction nodes as [|n nodes IH]; [by intros ?%elem_of_nil|].
  intros Hin. cbn [findIndex].
  destruct (String.eqb_spec (Node.id n) nodeId) as [Heq|Hne].
  - exists 0%nat, n. repeat split; try done. intros; lia.
  - cbn in Hin. apply elem_of_cons in Hin as [Heq|Hin]; [congruence|].
    destruct (IH Hin) as (k & m & Hk & Hm & Hid & Hfirst). cbv zeta. rewrite Hk.
    destruct (Z.ltb_spec (Z.of_nat k) 0) as [|_]; [lia|].
    exists (S k), m. repeat split; try done; [lia|].
    intros [|j] m' Hj Hm'; cbn in Hm'; [congruence|].
    apply (Hfirst j); [lia|done].
Qed.

Lemma findIndex_absent (nodes : list Node.t) (nodeId : string) :
  nodeId ∉ Node.id <$> nodes -> findIndex nodes nodeId = -1.
Proof.
  induction nodes as [|n nodes IH]; [done|]. intros Hout. cbn [findIndex].
  cbn in Hout. apply not_elem_of_cons in Hout as [Hne Hout].
  destruct (String.eqb_spec (Node.id n) nodeId) as [Heq|_]; [congruence|].
  cbv zeta. by rewrite (IH Hout).
Qed.

Lemma findIndex_NoDup (nodes : list Node.t) (k : nat) (n : Node.t) :
  NoDup (Node.id <$> nodes) ->
  nodes !! k = Some n ->
  findIndex nodes (Node.id n) = Z.of_nat k.
Proof.
  intros Hnd Hk.
  destruct (findIndex_found nodes (Node.id n)) as (k' & m & Hk' & Hm & Hid & _).
  { apply list_elem_of_fmap. exists n. split; [done|]. by eapply list_elem_of_lookup_2. }
  rewrite Hk'. f_equal.
  eapply (NoDup_lookup (Node.id <$> nodes) _ _ (Node.id n)); [done| |].
  - rewrite list_lookup_fmap, Hm. cbn. by rewrite Hid.
  - by rewrite list_lookup_fmap, Hk.
Qed.

Lemma transform_ids (recs allRecs : list Recommendation) :
  Node.id <$> transformRecommendations recs allRecs = action_id <$> recs.
Proof.
  apply list_eq. intros i. unfold transformRecommendations.
  rewrite !list_lookup_fmap, list_lookup_imap. by destruct (recs !! i).
Qed.

Lemma allDeps_in_stage (recs allRecs : list Recommendation) (i : nat)
  (rec : Recommendation) (d : string) :
  d ∈ allDeps recs allRecs i rec -> d ∈ action_id <$> recs.
Proof.
  intros Hd. apply allDeps_elem in Hd as [Hd|[_ Hd]]; [|done].
  apply sequentialDeps_elem in Hd as (_ & prev & Hp & ->).
  apply list_elem_of_fmap. exists prev. split; [done|].
  by eapply list_elem_of_lookup_2.
Qed.

(** A connection is drawn exactly when the dependency is the id of a node of
    the list and both rows have a position. *)
Lemma connection_is_Some (nodes : list Node.t) (positions : list Position)
  (index : nat) (node : Node.t) (depId : string) :
  is_Some (connection nodes positions index node depId) <->
  (exists k : nat, findIndex nodes depId = Z.of_nat k /\ (k < length positions)%nat)
  /\ (index < length positions)%nat.
Proof.
  unfold connection, getNodePosition. cbv zeta.
  destruct (findIndex_range nodes depId) as [Hm|Hr].
  - rewrite Hm. cbn. split; [by intros [? ?]|]. intros [(k & Hk & _) _]. lia.
  - destruct (Z.leb_spec 0 (findIndex nodes depId)) as [_|]; [|lia]. split.
    + destruct (positions !! Z.to_nat _) as [fromPos|] eqn:Hf; [|by intros [? ?]].
      destruct (positions !! index) as [toPos|] eqn:Ht; [|by intros [? ?]].
      intros _. split; [|by eapply lookup_lt_Some].
      exists (Z.to_nat (findIndex nodes depId)). split; [lia|by eapply lookup_lt_Some].
    + intros [(k & Hk & Hlt) Hi]. rewrite Hk, Nat2Z.id.
      destruct (lookup_lt_is_Some_2 positions k Hlt) as [fromPos ->].
      destruct (lookup_lt_is_Some_2 positions index Hi) as [toPos ->]. done.
Qed.

(** X5.  For the nodes built from a bucket and the positions computed for them,
    every dependency of every node gets its connection drawn; while the
    positions are still the empty list of the first render, none is. *)
Theorem every_dependency_is_drawn (recs allRecs : list Recommendation) :
  let nodes := transformRecommendations recs allRecs in
  (forall (i : nat) node depId,
      nodes !! i = Some node ->
      depId ∈ Node.dependencies node ->
      is_Some (connection nodes (calculatePositions nodes) i node depId))
  /\ (forall (i : nat) node depId, connection nodes [] i node depId = None).
Proof.
  cbv zeta. split.
  - intros i node depId Hn Hd. apply connection_is_Some.
    rewrite calculatePositions_length. split; [|by eapply lookup_lt_Some].
    destruct (findIndex_found (transformRecommendations recs allRecs) depId)
      as (k & m & Hk & Hm & _).
    + rewrite transform_ids. apply transform_lookup in Hn as (rec & Hr & ->).
      cbn [Node.dependencies transformOne] in Hd. by eapply allDeps_in_stage.
    + exists k. split; [done|]. by eapply lookup_lt_Some.
  - intros i node depId. unfold connection, getNodePosition. cbv zeta.
    destruct (0 <=? _); [by rewrite lookup_nil|done].
Qed.

(** X6.  When the action ids of a bucket are distinct, the sequential connection
    into the node of row [i + 1] starts at the middle of the bottom edge of
    row [i] and ends at the middle of the top edge of row [i + 1], 30
    lower. *)
Theorem sequential_connection_goes_down (recs allRecs : list Recommendation)
  (i : nat) (node prevNode : Node.t) :
  let nodes := transformRecommendations recs allRecs in
  NoDup (action_id <$> recs) ->
  nodes !! S i = Some node ->
  nodes !! i = Some prevNode ->
  exists c,
    connection nodes (calculatePositions nodes) (S i) node (Node.id prevNode) = Some c
    /\ key c = String.append (Node.id prevNode) (String.append "-" (Node.id node))
    /\ (fromY c == inject_Z (70 + 80 * Z.of_nat i))%Q
    /\ (toY c == inject_Z (100 + 80 * Z.of_nat i))%Q
    /\ (fromX c == inject_Z (160 + (if Z.of_nat i mod 2 =? 0 then 0 else 40)))%Q
    /\ (toX c == inject_Z (160 + (if Z.of_nat (S i) mod 2 =? 0 then 0 else 40)))%Q
    /\ (fromY c < midY c < toY c)%Q.
Proof.
  cbv zeta. intros Hnd Hn Hp.
  set (nodes := transformRecommendations recs allRecs) in *.
  assert (Hidx : findIndex nodes (Node.id prevNode) = Z.of_nat i).
  { apply findIndex_NoDup; [|done]. unfold nodes. by rewrite transform_ids. }
  unfold connection, getNodePosition. cbv zeta. rewrite Hidx.
  destruct (Z.leb_spec 0 (Z.of_nat i)) as [_|]; [|lia]. rewrite Nat2Z.id.
  assert (Hfrom : calculatePositions nodes !! i
                  = Some {| x := 20 + (if Z.of_nat i mod 2 =? 0 then 0 else 40);
                            y := 20 + Z.of_nat i * 80; width := 280; height := 50 |}).
  { apply calculatePositions_lookup. split; [by eapply lookup_lt_Some|done]. }
  assert (Hto : calculatePositions nodes !! S i
                = Some {| x := 20 + (if Z.of_nat (S i) mod 2 =? 0 then 0 else 40);
                          y := 20 + Z.of_nat (S i) * 80; width := 280; height := 50 |}).
  { apply calculatePositions_lookup. split; [by eapply lookup_lt_Some|done]. }
  rewrite Hfrom, Hto. eexists. split; [reflexivity|]. cbn [key fromX fromY toX toY midY x y width height].
  split; [done|].
  assert (HfY : (inject_Z (20 + Z.of_nat i * 80) + inject_Z 50
                 == inject_Z (70 + 80 * Z.of_nat i))%Q).
  { rewrite <- inject_Z_plus. apply inject_Z_injective. lia. }
  assert (HtY : (inject_Z (20 + Z.of_nat (S i) * 80)
                 == inject_Z (100 + 80 * Z.of_nat i))%Q).
  { apply inject_Z_injective. lia. }
  assert (Hhalf : forall a : Z, (inject_Z (20 + a) + inject_Z 280 / 2
                                 == inject_Z (160 + a))%Q).
  { intros a. unfold Qeq, Qplus, Qdiv, Qmult, Qinv, inject_Z. cbn. lia. }
  split; [exact HfY|]. split; [exact HtY|]. split; [apply Hhalf|]. split; [apply Hhalf|].
  rewrite HfY, HtY.
  unfold Qlt, Qdiv, Qplus, Qmult, Qinv, inject_Z. cbn. lia.
Qed.

Lemma sequential_connection_goes_down_witness :
  NoDup (action_id <$> plain_bucket)
  /\ exists c,
       connection (transformRecommendations plain_bucket plain_bucket)
         (calculatePositions (transformRecommendations plain_bucket plain_bucket))
         1 (transformOne plain_bucket plain_bucket 1
              {| action_id := "action_002"; name := "Create a Budget";
                 description := None; personalized_description := Some "Track spending";
                 prerequisites := None |})
         "action_001" = Some c
       /\ (fromY c == inject_Z 70)%Q.
Proof.
  assert (Hnd : NoDup (action_id <$> plain_bucket)).
  { apply (bool_decide_unpack (NoDup (action_id <$> plain_bucket))).
    vm_compute. exact I. }
  split; [exact Hnd|].
  destruct (sequential_connection_goes_down plain_bucket plain_bucket 0 _ _ Hnd
              eq_refl eq_refl) as (c & Hc & _ & HfY & _).
  exists c. split; [exact Hc | exact HfY].
Defined.

End ConnectionLines.

(** ** VisualPage: the profile bar *)

Section ProfileBar.
Import VisualPage.

Lemma opt_chain_updateProfile (prev : JsRef) (field k : string) (value : JsValue) :
  opt_chain (updateProfile prev field value) k
  = if decide (field = k) then value else opt_chain prev k.
Proof.
  unfold updateProfile, opt_chain. destruct (decide (field = k)) as [->|Hne].
  - by rewrite lookup_insert_eq.
  - rewrite lookup_insert_ne by done. destruct prev; cbn; by rewrite ?lookup_empty.
Qed.

Lemma profileOptions_truthy :
  Forall (fun fo => Forall (fun o => truthy (JsString o) = true) (snd fo)) profileOptions.
Proof. repeat constructor. Qed.

(** X7.  Choosing a value in one of the four toggles of the profile bar changes,
    in the request that is refetched, exactly the field of that toggle, to
    the chosen value; the eight other fields are those of a request built
    from the profile as it was. *)
Theorem updateProfile_changes_one_field (prev : JsRef) (field value : string)
  (opts : list string) :
  (field, opts) ∈ profileOptions ->
  value ∈ opts ->
  let next := engineProfile (updateProfile prev field (JsString value)) in
  let before := engineProfile prev in
  age_range next = (if decide (field = "age") then JsString value else age_range before)
  /\ monthly_salary next
     = (if decide (field = "salary") then JsString value else monthly_salary before)
  /\ debt next = (if decide (field = "debt") then JsString value else debt before)
  /\ investments next
     = (if decide (field = "investments") then JsString value else investments before)
  /\ location next = location before
  /\ property_value next = property_value before
  /\ vehicle_value next = vehicle_value before
  /\ has_dependents next = has_dependents before
  /\ employment_stability next = employment_stability before.
Proof.
  intros Hfield Hvalue. cbv zeta.
  assert (Htruthy : truthy (JsString value) = true).
  { pose proof profileOptions_truthy as HF. rewrite Forall_forall in HF.
    specialize (HF _ Hfield). cbn in HF. rewrite Forall_forall in HF. by apply HF. }
  assert (Hcases : field = "age" \/ field = "salary" \/ field = "debt"
                   \/ field = "investments").
  { unfold profileOptions in Hfield.
    repeat (apply elem_of_cons in Hfield as [[= -> _]|Hfield]; [tauto|]).
    by apply elem_of_nil in Hfield. }
  unfold engineProfile.
  cbn [age_range monthly_salary debt investments location property_value
         vehicle_value has_dependents employment_stability].
  rewrite !opt_chain_updateProfile.
  destruct Hcases as [->|[->|[->| ->]]]; repeat case_decide; try discriminate;
    unfold js_or at 1; rewrite ?Htruthy; repeat split; try done;
    unfold js_or; by rewrite Htruthy.
Qed.

Lemma updateProfile_changes_one_field_witness :
  ("debt", ["$0"; "<$5k"; "$5k–$15k"; "$15k–$30k"; "$30k–$75k"; "$75k–$150k"; "$150k+"])
    ∈ profileOptions
  /\ "$0" ∈ ["$0"; "<$5k"; "$5k–$15k"; "$15k–$30k"; "$30k–$75k"; "$75k–$150k"; "$150k+"]
  /\ debt (engineProfile (updateProfile RefNull "debt" (JsString "$0"))) = JsString "$0".
Proof.
  assert (Hf : ("debt", ["$0"; "<$5k"; "$5k–$15k"; "$15k–$30k"; "$30k–$75k";
                         "$75k–$150k"; "$150k+"]) ∈ profileOptions)
    by (do 2 right; left).
  assert (Hv : "$0" ∈ ["$0"; "<$5k"; "$5k–$15k"; "$15k–$30k"; "$30k–$75k";
                       "$75k–$150k"; "$150k+"]) by left.
  split; [exact Hf|]. split; [exact Hv|].
  destruct (updateProfile_changes_one_field RefNull "debt" "$0" _ Hf Hv)
    as (_ & _ & Hdebt & _).
  exact Hdebt.
Defined.

End ProfileBar.

(** ** VisualPage: what a node holds *)

Section NodeContents.
Import VisualPage.

Lemma Set_add_NoDup (s : list string) (x : string) : NoDup s -> NoDup (Set_add s x).
Proof.
  intros Hnd. unfold Set_add. case_bool_decide as Hx; [done|].
  apply NoDup_app. split; [done|]. split; [|apply NoDup_singleton].
  intros y Hy ->%list_elem_of_singleton. done.
Qed.

Lemma new_Set_NoDup (items : list string) : NoDup (new_Set items).
Proof.
  unfold new_Set.
  assert (Hgen : forall acc, NoDup acc -> NoDup (fold_left Set_add items acc)).
  { induction items as [|x items IH]; intros acc Hacc; [done|].
    cbn. by apply IH, Set_add_NoDup. }
  apply Hgen. constructor.
Qed.

Lemma str_or_truthy (a b : option string) :
  truthyId b = true -> truthyId (str_or a b) = true.
Proof. intros Hb. unfold str_or. by destruct (truthyId a) eqn:Ha. Qed.

(** X8.  Every node built from a recommendation has a text to show, the
    description if it is not empty, else the personalized description if
    that is not empty, else 'No description available', so never the empty
    string; it lists no dependency twice; and it carries the id and the
    name of its recommendation. *)
Theorem node_has_description (recs allRecs : list Recommendation) (i : nat)
  (rec : Recommendation) (node : Node.t) :
  recs !! i = Some rec ->
  transformRecommendations recs allRecs !! i = Some node ->
  Node.description node <> ""
  /\ Node.description node
     = match description rec, personalized_description rec with
       | Some d, Some p =>
           if negb (String.eqb d "") then d
           else if negb (String.eqb p "") then p else "No description available"
       | Some d, None => if negb (String.eqb d "") then d else "No description available"
       | None, Some p => if negb (String.eqb p "") then p else "No description available"
       | None, None => "No description available"
       end
  /\ NoDup (Node.dependencies node)
  /\ Node.id node = action_id rec
  /\ Node.name node = name rec.
Proof.
  intros Hr Hn. apply transform_lookup in Hn as (rec' & Hr' & ->).
  assert (rec' = rec) as -> by congruence.
  cbn [Node.description Node.dependencies Node.id Node.name transformOne].
  split; [|split; [|split; [apply new_Set_NoDup|done]]].
  - destruct (description rec) as [d|], (personalized_description rec) as [p|];
      unfold str_or; cbn;
      repeat (match goal with |- context [String.eqb ?s ""] =>
                destruct (String.eqb_spec s "") end; cbn); congruence.
  - destruct (description rec) as [d|], (personalized_description rec) as [p|];
      unfold str_or; cbn;
      repeat (match goal with |- context [String.eqb ?s ""] =>
                destruct (String.eqb_spec s "") end; cbn); congruence.
Qed.

Lemma node_has_description_witness :
  plain_bucket !! 1%nat
  = Some {| action_id := "action_002"; name := "Create a Budget";
            description := None; personalized_description := Some "Track spending";
            prerequisites := None |}
  /\ Node.description
       (transformOne plain_bucket plain_bucket 1
          {| action_id := "action_002"; name := "Create a Budget";
             description := None; personalized_description := Some "Track spending";
             prerequisites := None |}) <> "".
Proof.
  split; [reflexivity|].
  apply (node_has_description plain_bucket plain_bucket 1 _ _ eq_refl eq_refl).
Defined.

(** X9.  No entry of the keyword map is dead: an action named by a keyword alone
    gets the links of that keyword, so no keyword contains an earlier one. *)
Theorem every_keyword_is_reachable (i : nat) (keyword : string)
  (resources : list Resource) (actionId : string) :
  resourceMap !! i = Some (keyword, resources) ->
  generateResources keyword actionId = resources.
Proof.
  unfold resourceMap.
  do 15 (destruct i as [|i]; [intros [= <- <-]; reflexivity|]).
  cbn. done.
Qed.

Lemma every_keyword_is_reachable_witness :
  generateResources "mortgage" "action_010"
  = [ {| title := "Mortgage Basics"; url := "https://www.consumerfinance.gov/owning-a-home/" |};
      {| title := "Compare Mortgage Rates"; url := "https://www.bankrate.com/mortgages/mortgage-rates/" |} ].
Proof.
  apply (every_keyword_is_reachable 10 "mortgage"). reflexivity.
Defined.

End NodeContents.

(** ** UserInputPage: the form *)

Section InputForm.
Import UserInputPage VisualPage.

Lemma starts_with_spec (tok l : list ascii) :
  starts_with tok l = true <-> exists rest, l = (tok ++ rest)%list.
Proof.
  revert l. induction tok as [|a tok IH]; intros l; cbn.
  - split; [by exists l|done].
  - destruct l as [|b l]; [split; [done|by intros [rest ?]]|].
    rewrite andb_true_iff, Ascii.eqb_eq, IH. split.
    + intros [-> [rest ->]]. by exists rest.
    + intros [rest [= -> ->]]. split; [done|by exists rest].
Qed.

Lemma strip_token_Some (toks : list (list ascii)) (l l' : list ascii) :
  strip_token toks l = Some l' -> exists tok, tok ∈ toks /\ l = (tok ++ l')%list.
Proof.
  induction toks as [|t toks IH]; cbn; [done|].
  destruct (starts_with t l) eqn:Ht.
  - intros [= <-]. apply starts_with_spec in Ht as [rest ->].
    exists t. split; [by left|]. by rewrite drop_app_length.
  - intros (tok & Hin & ->)%IH. exists tok. split; [by right|done].
Qed.

Lemma strip_token_None (toks : list (list ascii)) (l : list ascii) :
  strip_token toks l = None ->
  forall tok rest, tok ∈ toks -> l <> (tok ++ rest)%list.
Proof.
  induction toks as [|t toks IH]; cbn; [by intros _ tok rest ?%elem_of_nil|].
  destruct (starts_with t l) eqn:Ht; [done|].
  intros Hnone tok rest [->|Hin]%elem_of_cons Hl.
  - assert (starts_with t l = true) by (apply starts_with_spec; by exists rest).
    congruence.
  - by apply (IH Hnone tok rest).
Qed.

Lemma made_of_app (toks : list (list ascii)) (a b : list ascii) :
  made_of toks a -> made_of toks b -> made_of toks (a ++ b)%list.
Proof.
  intros Ha Hb. induction Ha as [|tok l Hin Hl IH]; [done|].
  rewrite <- app_assoc. by constructor.
Qed.

Lemma made_of_one (toks : list (list ascii)) (tok : list ascii) :
  tok ∈ toks -> made_of toks tok.
Proof.
  intros Hin. rewrite <- (app_nil_r tok). constructor; [done|constructor].
Qed.

Lemma made_of_reverse (toks : list (list ascii)) (l : list ascii) :
  made_of (reverse <$> toks) l -> made_of toks (reverse l).
Proof.
  induction 1 as [|rtok l Hin Hl IH]; [constructor|].
  rewrite reverse_app. apply made_of_app; [done|].
  apply list_elem_of_fmap in Hin as (tok & -> & Hin).
  rewrite reverse_involutive. by apply made_of_one.
Qed.

Lemma made_of_reversed (toks : list (list ascii)) (l : list ascii) :
  made_of toks l -> made_of (reverse <$> toks) (reverse l).
Proof.
  induction 1 as [|tok l Hin Hl IH]; [constructor|].
  rewrite reverse_app. apply made_of_app; [done|].
  apply made_of_one, list_elem_of_fmap. by exists tok.
Qed.

Section Tokens.
Variable toks : list (list ascii).
Hypothesis toks_nonempty : forall tok, tok ∈ toks -> tok <> [].
Hypothesis toks_prefix_free :
  forall t1 t2 a b, t1 ∈ toks -> t2 ∈ toks -> (t1 ++ a = t2 ++ b)%list -> t1 = t2.

(** What is left begins with no token, and what was removed is a sequence
    of tokens. *)
Lemma trim_leading_spec (fuel : nat) (l : list ascii) :
  (length l <= fuel)%nat ->
  exists pre,
    l = (pre ++ trim_leading toks fuel l)%list
    /\ made_of toks pre
    /\ forall tok rest, tok ∈ toks -> trim_leading toks fuel l <> (tok ++ rest)%list.
Proof.
  revert l. induction fuel as [|fuel IH]; intros l Hlen; cbn.
  - destruct l; [|cbn in Hlen; lia]. exists []. split; [done|]. split; [constructor|].
    intros tok rest Hin Heq. symmetry in Heq. apply app_eq_nil in Heq as [-> _].
    by apply (toks_nonempty [] Hin).
  - destruct (strip_token toks l) as [l'|] eqn:Hs.
    + apply strip_token_Some in Hs as (tok & Hin & ->).
      assert (tok <> []) by by apply toks_nonempty.
      destruct (IH l') as (pre & Hl' & Hpre & Hclean).
      { rewrite length_app in Hlen. destruct tok; [done|]. cbn in Hlen. lia. }
      exists (tok ++ pre)%list. split; [by rewrite <- app_assoc, <- Hl'|].
      split; [by constructor|done].
    + exists []. split; [done|]. split; [constructor|]. by apply strip_token_None.
Qed.

(** A sequence of tokens is removed whole. *)
Lemma trim_leading_made (fuel : nat) (l : list ascii) :
  made_of toks l -> (length l <= fuel)%nat -> trim_leading toks fuel l = [].
Proof.
  intros Hl. revert fuel. induction Hl as [|tok l Hin Hl IH]; intros fuel Hlen.
  - destruct fuel; cbn; [done|].
    destruct (strip_token toks []) as [l'|] eqn:Hs; [|done].
    apply strip_token_Some in Hs as (tok & Hin & Heq).
    symmetry in Heq. apply app_eq_nil in Heq as [-> _].
    by destruct (toks_nonempty [] Hin).
  - assert (tok <> []) by by apply toks_nonempty.
    rewrite length_app in Hlen.
    destruct fuel as [|fuel]; [destruct tok; [done|cbn in Hlen; lia]|].
    cbn. destruct (strip_token toks (tok ++ l)%list) as [l'|] eqn:Hs.
    + apply strip_token_Some in Hs as (tok' & Hin' & Heq).
      assert (tok = tok') as <- by by eapply toks_prefix_free.
      apply app_inv_head in Heq as <-. apply IH.
      destruct tok; [done|]. cbn in Hlen. lia.
    + by destruct (strip_token_None _ _ Hs tok l Hin).
Qed.

End Tokens.

Lemma common_start (t1 t2 a b : list ascii) :
  (t1 ++ a = t2 ++ b)%list -> starts_with t1 t2 = true \/ starts_with t2 t1 = true.
Proof.
  revert t2. induction t1 as [|x t1 IH]; intros t2 Heq; [by left|].
  destruct t2 as [|y t2]; [by right|].
  injection Heq as -> Heq. destruct (IH _ Heq) as [H|H]; [left|right];
    cbn; by rewrite Ascii.eqb_refl.
Qed.

Lemma prefix_free_spec (toks : list (list ascii)) :
  prefix_free toks = true ->
  forall t1 t2 a b, t1 ∈ toks -> t2 ∈ toks -> (t1 ++ a = t2 ++ b)%list -> t1 = t2.
Proof.
  unfold prefix_free. rewrite forallb_forall. intros Hall t1 t2 a b H1 H2 Heq.
  pose proof (Hall t1 (proj1 (list_elem_of_In _ _) H1)) as Hrow1.
  pose proof (Hall t2 (proj1 (list_elem_of_In _ _) H2)) as Hrow2.
  rewrite forallb_forall in Hrow1, Hrow2.
  specialize (Hrow1 t2 (proj1 (list_elem_of_In _ _) H2)).
  specialize (Hrow2 t1 (proj1 (list_elem_of_In _ _) H1)).
  destruct (common_start _ _ _ _ Heq) as [H|H].
  - rewrite H in Hrow1. cbn in Hrow1. by apply bool_decide_eq_true in Hrow1.
  - rewrite H in Hrow2. cbn in Hrow2. by apply bool_decide_eq_true in Hrow2.
Qed.

Lemma nonempty_spec (toks : list (list ascii)) :
  forallb (fun tok => negb (bool_decide (tok = []))) toks = true ->
  forall tok, tok ∈ toks -> tok <> [].
Proof.
  rewrite forallb_forall. intros Hall tok Hin ->.
  specialize (Hall [] (proj1 (list_elem_of_In _ _) Hin)). by cbn in Hall.
Qed.

Lemma white_space_nonempty : forall tok, tok ∈ white_space -> tok <> [].
Proof. apply nonempty_spec. by vm_compute. Qed.

Lemma white_space_prefix_free :
  forall t1 t2 a b,
    t1 ∈ white_space -> t2 ∈ white_space -> (t1 ++ a = t2 ++ b)%list -> t1 = t2.
Proof. apply prefix_free_spec. by vm_compute. Qed.

Lemma white_space_reversed_nonempty :
  forall tok, tok ∈ reverse <$> white_space -> tok <> [].
Proof. apply nonempty_spec. by vm_compute. Qed.

Lemma white_space_suffix_free :
  forall t1 t2 a b,
    t1 ∈ reverse <$> white_space -> t2 ∈ reverse <$> white_space ->
    (t1 ++ a = t2 ++ b)%list -> t1 = t2.
Proof. apply prefix_free_spec. by vm_compute. Qed.

Lemma bytes_append (a b : string) :
  list_ascii_of_string (String.append a b)
  = (list_ascii_of_string a ++ list_ascii_of_string b)%list.
Proof.
  induction a as [|c a IH]; [done|].
  rewrite append_cons. cbn [list_ascii_of_string app]. by rewrite IH.
Qed.

Lemma text_append (a b : list ascii) :
  string_of_list_ascii (a ++ b)%list
  = String.append (string_of_list_ascii a) (string_of_list_ascii b).
Proof.
  induction a as [|c a IH]; [done|].
  cbn [app string_of_list_ascii]. by rewrite append_cons, IH.
Qed.

Lemma text_bytes (s : string) (l : list ascii) :
  list_ascii_of_string s = l -> s = string_of_list_ascii l.
Proof. intros <-. by rewrite string_of_list_ascii_of_string. Qed.

Lemma trimStart_spec (s : string) :
  exists pre,
    s = String.append pre (trimStart s)
    /\ all_spaces pre /\ starts_clean (trimStart s).
Proof.
  unfold trimStart, all_spaces, starts_clean. cbv zeta.
  destruct (trim_leading_spec white_space white_space_nonempty
              (length (list_ascii_of_string s)) (list_ascii_of_string s))
    as (pre & Hs & Hpre & Hclean); [done|].
  exists (string_of_list_ascii pre).
  rewrite !list_ascii_of_string_of_list_ascii. split; [|done].
  rewrite <- text_append. by apply text_bytes.
Qed.

Lemma trimEnd_spec (s : string) :
  exists post,
    s = String.append (trimEnd s) post
    /\ all_spaces post /\ ends_clean (trimEnd s).
Proof.
  unfold trimEnd, all_spaces, ends_clean. cbv zeta.
  set (l := reverse (list_ascii_of_string s)).
  destruct (trim_leading_spec (reverse <$> white_space) white_space_reversed_nonempty
              (length l) l) as (pre & Hl & Hpre & Hclean); [done|].
  exists (string_of_list_ascii (reverse pre)).
  rewrite !list_ascii_of_string_of_list_ascii. split; [|split].
  - rewrite <- text_append, <- reverse_app, <- Hl. unfold l.
    rewrite reverse_involutive. by apply text_bytes.
  - by apply made_of_reverse.
  - intros tok rest Hin Heq.
    apply (Hclean (reverse tok) (reverse rest)).
    + apply list_elem_of_fmap. by exists tok.
    + by rewrite <- reverse_app, <- Heq, reverse_involutive.
Qed.

Lemma trimStart_all_spaces (s : string) : all_spaces s -> trimStart s = "".
Proof.
  unfold all_spaces, trimStart. intros Hs. cbv zeta.
  rewrite (trim_leading_made white_space white_space_nonempty
             white_space_prefix_free); done.
Qed.

(** The text is removed whole exactly when it holds white space only. *)
Lemma trim_empty_iff (s : string) : trim s = "" <-> all_spaces s.
Proof.
  unfold trim. split.
  - intros Ht.
    destruct (trimStart_spec s) as (pre & Hs & Hpre & _).
    destruct (trimEnd_spec (trimStart s)) as (post & Hr & Hpost & _).
    rewrite Ht in Hr. cbn in Hr. rewrite Hr in Hs.
    unfold all_spaces in *. rewrite Hs, bytes_append. by apply made_of_app.
  - intros Hs. by rewrite (trimStart_all_spaces s Hs).
Qed.

(** What is left of a text that does not hold white space only. *)
Lemma trim_spec (s : string) : trim s <> "" -> trimmed_of s (trim s).
Proof.
  intros Hne. unfold trimmed_of, trim in *.
  destruct (trimStart_spec s) as (pre & Hs & Hpre & Hstart).
  destruct (trimEnd_spec (trimStart s)) as (post & Hr & Hpost & Hend).
  split; [done|]. split; [|split; [|done]].
  - exists pre, post. by rewrite <- Hr.
  - intros tok rest Hin Heq. apply (Hstart tok (rest ++ list_ascii_of_string post)%list Hin).
    rewrite Hr at 1. by rewrite bytes_append, Heq, <- app_assoc.
Qed.

(** X10.  The form is submitted exactly when both texts hold something
    other than white space (the white space and line terminators of
    ECMAScript, in UTF-8); what is submitted then is each text without the
    white space around it, never empty, together with the risk level of the
    slider. *)
Theorem form_submits_trimmed_texts (st : State) :
  (handleSubmit st = None <->
   all_spaces (currentSituation st) \/ all_spaces (futureGoals st))
  /\ (forall q,
        handleSubmit st = Some q ->
        trimmed_of (currentSituation st) (Query.currentSituation q)
        /\ trimmed_of (futureGoals st) (Query.futureGoals q)
        /\ Query.riskLevel q = getRiskLevel (riskSliderValue st)).
Proof.
  unfold handleSubmit, isFormValid.
  destruct (String.eqb_spec (trim (currentSituation st)) "") as [Hc|Hc];
    destruct (String.eqb_spec (trim (futureGoals st)) "") as [Hf|Hf]; cbn;
    rewrite <- !trim_empty_iff.
  1-3: split; [split; [tauto|done]|done].
  split; [split; [done|tauto]|].
  intros q [= <-]. cbn [Query.currentSituation Query.futureGoals Query.riskLevel].
  split; [by apply trim_spec|]. split; [by apply trim_spec|done].
Qed.

Lemma form_submits_trimmed_texts_witness :
  handleSubmit {| currentSituation := "  student loans "; futureGoals := "a house";
                  riskSliderValue := 80 |}
  = Some {| Query.currentSituation := "student loans"; Query.futureGoals := "a house";
            Query.riskLevel := high |}
  /\ trimmed_of "  student loans " "student loans".
Proof.
  assert (Hs : handleSubmit {| currentSituation := "  student loans ";
                               futureGoals := "a house"; riskSliderValue := 80 |}
               = Some {| Query.currentSituation := "student loans";
                         Query.futureGoals := "a house"; Query.riskLevel := high |})
    by reflexivity.
  split; [exact Hs|].
  destruct (form_submits_trimmed_texts
              {| currentSituation := "  student loans "; futureGoals := "a house";
                 riskSliderValue := 80 |}) as [_ Hq].
  exact (proj1 (Hq _ Hs)).
Defined.

(** A text of one no-break space is white space only and is not submitted;
    an ideographic space before a text and a byte order mark after it are
    removed. *)
Example no_break_space_is_not_submitted :
  handleSubmit {| currentSituation := string_of_list_ascii (utf8 160);
                  futureGoals := "a house"; riskSliderValue := 50 |} = None
  /\ trim (string_of_list_ascii
             (utf8 12288 ++ list_ascii_of_string "debt" ++ utf8 65279)%list)
     = "debt".
Proof. by vm_compute. Qed.

Lemma riskLevel_string_truthy (r : RiskLevel) :
  truthy (JsString (riskLevel_string r)) = true.
Proof. by destruct r. Qed.

(** X11.  Given as [queryData] the object the form submits, the engine query
    carries the three submitted values themselves: no default takes the
    place of any of them. *)
Theorem submitted_query_needs_no_default (st : State) (q : Query.t) :
  handleSubmit st = Some q ->
  engineQuery (queryObject q)
  = {| risk_tolerance := JsString (riskLevel_string (getRiskLevel (riskSliderValue st)));
       current_situation := JsString (trim (currentSituation st));
       goal := JsString (trim (futureGoals st)) |}.
Proof.
  unfold handleSubmit, isFormValid.
  destruct (String.eqb_spec (trim (currentSituation st)) "") as [Hc|Hc]; [done|].
  destruct (String.eqb_spec (trim (futureGoals st)) "") as [Hf|Hf]; [done|].
  cbn. intros [= <-]. unfold engineQuery, queryObject, opt_chain. cbn.
  rewrite lookup_insert_ne by done. rewrite lookup_insert_ne by done.
  rewrite lookup_insert_eq. rewrite lookup_insert_eq.
  rewrite lookup_insert_ne by done. rewrite lookup_insert_eq. cbn.
  unfold js_or. rewrite riskLevel_string_truthy. cbn.
  destruct (String.eqb_spec (trim (currentSituation st)) ""); [done|].
  destruct (String.eqb_spec (trim (futureGoals st)) ""); [done|]. done.
Qed.

Lemma submitted_query_needs_no_default_witness :
  engineQuery
    (queryObject {| Query.currentSituation := "student loans";
                    Query.futureGoals := "a house"; Query.riskLevel := high |})
  = {| risk_tolerance := JsString "high";
       current_situation := JsString "student loans";
       goal := JsString "a house" |}.
Proof.
  apply (submitted_query_needs_no_default
           {| currentSituation := "  student loans "; futureGoals := "a house";
              riskSliderValue := 80 |}).
  reflexivity.
Defined.

End InputForm.

(** ** ProfileSetup and the saved profile *)

Section SavedProfile.
Import VisualPage.

Ltac listed := repeat (first [by left | right]).
Ltac unlisted :=
  let Hin := fresh "Hin" in
  intros Hin;
  repeat (apply elem_of_cons in Hin as [?|Hin]; [discriminate|]);
  by apply elem_of_nil in Hin.

Lemma question_ids :
  ProfileSetup.id <$> ProfileSetup.profileQuestions = Firebase.savedKeys.
Proof. reflexivity. Qed.

Lemma allFilled_true (profileData : gmap string JsValue) :
  ProfileSetup.allFilled profileData = true <->
  forall k, k ∈ Firebase.savedKeys -> truthy (ProfileSetup.field profileData k) = true.
Proof.
  unfold ProfileSetup.allFilled. rewrite forallb_forall, <- question_ids. split.
  - intros Hall k (q & -> & Hq)%list_elem_of_fmap. apply Hall. by apply list_elem_of_In.
  - intros Hall q Hq. apply Hall, list_elem_of_fmap. exists q.
    split; [done|by apply list_elem_of_In].
Qed.

(** What [saveUserProfile] writes under [profile]: the seven keys, and no
    other. *)
Lemma saved_profile_lookup (fields : gmap string JsValue) (doc : Firebase.UserDoc)
  (k : string) :
  Firebase.saveUserProfile (RefObject fields) = Some doc ->
  opt_chain (Firebase.profile doc) k
  = if bool_decide (k ∈ Firebase.savedKeys)
    then ProfileSetup.field fields k else JsUndefined.
Proof.
  intros [= <-]. cbn [Firebase.profile opt_chain].
  unfold Firebase.savedKeys, ProfileSetup.field. cbn [fmap list_fmap list_to_map foldr].
  cbn [uncurry fst snd].
  case_bool_decide as Hin.
  - repeat (apply elem_of_cons in Hin as [->|Hin]; [reflexivity|]).
    by apply elem_of_nil in Hin.
  - rewrite !lookup_insert, lookup_empty.
    repeat case_decide; subst; try done; destruct Hin; repeat (first [by left | right]).
Qed.

(** X12.  The profile form completes only when all seven questions have an
    answer, and then hands on the answers as they are; saved and read back
    as written, they reach the engine request unchanged, no default taking
    the place of any, with the dependents flag false. *)
Theorem completed_profile_reaches_engine (profileData completed : gmap string JsValue) :
  ProfileSetup.handleSubmit profileData = ProfileSetup.Completed completed ->
  completed = profileData
  /\ (forall k, k ∈ Firebase.savedKeys ->
                truthy (ProfileSetup.field profileData k) = true)
  /\ exists doc,
       Firebase.saveUserProfile (RefObject completed) = Some doc
       /\ Firebase.profileCompleted doc = JsBool true
       /\ engineProfile (Firebase.profile doc)
          = {| age_range := ProfileSetup.field profileData "age";
               location := ProfileSetup.field profileData "location";
               property_value := ProfileSetup.field profileData "propertyValue";
               vehicle_value := ProfileSetup.field profileData "vehicleValue";
               investments := ProfileSetup.field profileData "investments";
               debt := ProfileSetup.field profileData "debt";
               monthly_salary := ProfileSetup.field profileData "salary";
               has_dependents := JsBool false;
               employment_stability := 7 # 10 |}.
Proof.
  unfold ProfileSetup.handleSubmit.
  destruct (ProfileSetup.allFilled profileData) eqn:Hall; [|done].
  intros [= <-]. pose proof (proj1 (allFilled_true profileData) Hall) as Hfilled.
  clear Hall. rename Hfilled into Hall.
  split; [done|]. split; [done|].
  destruct (Firebase.saveUserProfile (RefObject profileData)) as [doc|] eqn:Hdoc; [|done].
  exists doc. split; [done|]. split; [by injection Hdoc as <-|].
  unfold engineProfile.
  rewrite !(saved_profile_lookup _ _ _ Hdoc). cbn [bool_decide].
  repeat (rewrite bool_decide_eq_true_2 by (unfold Firebase.savedKeys; listed)).
  rewrite bool_decide_eq_false_2 by (unfold Firebase.savedKeys; unlisted).
  unfold js_or. rewrite !Hall by (unfold Firebase.savedKeys; listed). done.
Qed.

Lemma completed_profile_reaches_engine_witness :
  ProfileSetup.handleSubmit filled_profile = ProfileSetup.Completed filled_profile
  /\ forall k, k ∈ Firebase.savedKeys ->
               truthy (ProfileSetup.field filled_profile k) = true.
Proof.
  assert (Hs : ProfileSetup.handleSubmit filled_profile
               = ProfileSetup.Completed filled_profile) by (vm_compute; reflexivity).
  split; [exact Hs|].
  exact (proj1 (proj2 (completed_profile_reaches_engine _ _ Hs))).
Defined.

(** X13.  Whenever [saveUserProfile] resolves, the profile it sent to the
    store holds the seven answers of the object it was given and nothing
    else: a dependents flag of that object is not sent, and an engine
    request built from the profile sent says [has_dependents: false].  For
    [null] and [undefined] the function rejects without calling the
    store. *)
Theorem saved_profile_has_no_dependents_flag (setDoc : Firebase.UserDoc -> bool)
  (profileData : JsRef) (doc : Firebase.UserDoc) :
  Firebase.saveUserProfile_await setDoc profileData = Some doc ->
  setDoc doc = true
  /\ Firebase.profileCompleted doc = JsBool true
  /\ (exists fields,
        profileData = RefObject fields
        /\ forall k, opt_chain (Firebase.profile doc) k
                     = if bool_decide (k ∈ Firebase.savedKeys)
                       then default JsUndefined (fields !! k)
                       else JsUndefined)
  /\ opt_chain (Firebase.profile doc) "has_dependents" = JsUndefined
  /\ has_dependents (engineProfile (Firebase.profile doc)) = JsBool false
  /\ Firebase.saveUserProfile_await setDoc RefNull = None
  /\ Firebase.saveUserProfile_await setDoc RefUndefined = None.
Proof.
  unfold Firebase.saveUserProfile_await.
  destruct (Firebase.saveUserProfile profileData) as [data|] eqn:Hdata; [|done].
  destruct (setDoc data) eqn:Hset; [|done]. intros [= <-].
  destruct profileData as [| |fields]; [done|done|].
  assert (Hflag : opt_chain (Firebase.profile data) "has_dependents" = JsUndefined).
  { rewrite (saved_profile_lookup _ _ _ Hdata).
    by rewrite bool_decide_eq_false_2 by (unfold Firebase.savedKeys; unlisted). }
  split; [done|]. split; [by injection Hdata as <-|].
  split; [exists fields; split; [done|]; intros k; by apply saved_profile_lookup|].
  split; [done|]. split; [|done].
  unfold engineProfile. cbn [has_dependents]. by rewrite Hflag.
Qed.

Lemma saved_profile_has_no_dependents_flag_witness :
  opt_chain (RefObject filled_profile) "has_dependents" = JsBool true
  /\ exists doc,
       Firebase.saveUserProfile_await (fun _ => true) (RefObject filled_profile)
       = Some doc
       /\ opt_chain (Firebase.profile doc) "has_dependents" = JsUndefined
       /\ has_dependents (engineProfile (Firebase.profile doc)) = JsBool false.
Proof.
  split; [reflexivity|].
  destruct (Firebase.saveUserProfile_await (fun _ => true) (RefObject filled_profile))
    as [doc|] eqn:Hdoc; [|discriminate Hdoc].
  exists doc. split; [reflexivity|].
  destruct (saved_profile_has_no_dependents_flag _ _ _ Hdoc)
    as (_ & _ & _ & Hflag & Hengine & _).
  split; [exact Hflag | exact Hengine].
Defined.

End SavedProfile.

(** ** ScrollableCards *)

Section CardDeck.
Import ScrollableCards.

Lemma step_in_deck (n : nat) (st : State) (ev : Event) :
  in_deck n st -> in_deck n (step n st ev).
Proof.
  unfold in_deck. intros Hst. destruct ev as [deltaY| |]; cbn.
  - unfold handleWheel. destruct (isScrolling st); [done|].
    destruct (negb (Qle_bool deltaY 0));
      destruct (_ && _) eqn:E; cbn; try done;
      apply andb_true_iff in E as [?%Z.leb_le ?%Z.ltb_lt]; lia.
  - done.
  - unfold goToNextCard. destruct (_ <? _) eqn:E; cbn; [|done].
    apply Z.ltb_lt in E. lia.
Qed.

Lemma run_in_deck (n : nat) (evs : list Event) (st : State) :
  in_deck n st -> in_deck n (fold_left (step n) evs st).
Proof.
  revert st. induction evs as [|ev evs IH]; intros st Hst; [done|].
  cbn. by apply IH, step_in_deck.
Qed.

Lemma initial_in_deck (n : nat) : in_deck n initial.
Proof. unfold in_deck. cbn. lia. Qed.

(** X14.  Whatever wheel events, cooldown expiries and next-card calls
    reach the deck, the selected index names an existing card (and stays 0
    in a deck without cards). *)
Theorem selected_card_exists (n : nat) (evs : list Event) :
  in_deck n (fold_left (step n) evs initial).
Proof. apply run_in_deck, initial_in_deck. Qed.

Lemma handleWheel_cases (n : nat) (st : State) (deltaY : Q) :
  handleWheel n st deltaY = st
  \/ (isScrolling (handleWheel n st deltaY) = true
      /\ Z.abs (selectedIndex (handleWheel n st deltaY) - selectedIndex st) = 1).
Proof.
  unfold handleWheel. destruct (isScrolling st); [by left|].
  destruct (negb (Qle_bool deltaY 0)); destruct (_ && _); cbn;
    first [by left | right; split; [done|lia]].
Qed.

Lemma wheel_ignored_while_scrolling (n : nat) (ds : list Q) (st : State) :
  isScrolling st = true -> fold_left (handleWheel n) ds st = st.
Proof.
  intros Hs. induction ds as [|d ds IH]; [done|]. cbn.
  assert (handleWheel n st d = st) as -> by (unfold handleWheel; by rewrite Hs).
  exact IH.
Qed.

(** X15.  However many wheel events arrive before the cooldown expires,
    the selection moves by at most one card. *)
Theorem one_card_per_cooldown (n : nat) (st : State) (ds : list Q) :
  Z.abs (selectedIndex (fold_left (handleWheel n) ds st) - selectedIndex st) <= 1.
Proof.
  revert st. induction ds as [|d ds IH]; intros st; cbn; [lia|].
  destruct (handleWheel_cases n st d) as [->|[Hs Hd]]; [apply IH|].
  rewrite wheel_ignored_while_scrolling by done. lia.
Qed.

(** X16.  Every card of the deck gets a z-index between 1 and the number
    of cards, and only the selected card gets the highest one. *)
Theorem selected_card_is_on_top (n : nat) (evs : list Event) (i : Z) :
  0 <= i < Z.of_nat n ->
  1 <= getZIndex n (fold_left (step n) evs initial) i <= Z.of_nat n
  /\ (getZIndex n (fold_left (step n) evs initial) i = Z.of_nat n
      <-> i = selectedIndex (fold_left (step n) evs initial)).
Proof.
  intros Hi. pose proof (run_in_deck n evs initial (initial_in_deck n)) as Hd.
  unfold in_deck in Hd. unfold getZIndex. lia.
Qed.

Lemma selected_card_is_on_top_witness :
  1 <= getZIndex 3 (fold_left (step 3) [Wheel (1 # 1); CooldownElapsed; GoToNextCard] initial) 0 <= 3
  /\ (getZIndex 3 (fold_left (step 3) [Wheel (1 # 1); CooldownElapsed; GoToNextCard] initial) 0 = 3
      <-> 0 = selectedIndex (fold_left (step 3) [Wheel (1 # 1); CooldownElapsed; GoToNextCard] initial)).
Proof.
  apply (selected_card_is_on_top 3 [Wheel (1 # 1); CooldownElapsed; GoToNextCard] 0). lia.
Defined.

End CardDeck.

(** ** App: which screen is shown *)

Section Routing.
Import VisualPage App.

(** X17.  After a user signs in (and the account page is not open) the
    profile form is shown exactly when the stored document does not carry
    [profileCompleted] equal to the boolean [true]: a failed read, a
    missing document and any other value all lead to the form. *)
Theorem profile_form_unless_completed (st : State) (u : string) (read : Firebase.Read) :
  showAccountPage st = false ->
  render (step st (AuthStateChanged (Some u) read)) = ProfileSetupScreen
  <-> (forall d, read = Firebase.Found d -> Firebase.profileCompleted d <> JsBool true).
Proof.
  intros Hp. unfold render. cbn. rewrite Hp.
  destruct read as [| |d]; cbn.
  - split; [by intros _ d [=]|done].
  - split; [by intros _ d [=]|done].
  - destruct (Firebase.profileCompleted d) as [| |[|]| |] eqn:E; cbn;
      try (split; [intros _ d' [= <-]; by rewrite E|done]).
    split.
    + by destruct (userInputComplete st).
    + intros H. by destruct (H d eq_refl).
Qed.

Lemma profile_form_unless_completed_witness :
  render (step initial
            (AuthStateChanged (Some "uid-1")
               (Firebase.Found {| Firebase.profile := RefNull;
                                  Firebase.profileCompleted := JsString "true" |})))
  = ProfileSetupScreen.
Proof.
  apply (profile_form_unless_completed initial "uid-1" _ eq_refl).
  intros d [= <-]. discriminate.
Defined.

Lemma step_keeps_input (st : State) (ev : Event) :
  userInputComplete st = true /\ is_Some (queryData st) ->
  userInputComplete (step st ev) = true /\ is_Some (queryData (step st ev)).
Proof.
  intros [Hc Hq]. destruct ev; cbn; repeat case_match; cbn; done.
Qed.

Lemma run_keeps_input (evs : list Event) (st : State) :
  userInputComplete st = true /\ is_Some (queryData st) ->
  userInputComplete (run st evs) = true /\ is_Some (queryData (run st evs)).
Proof.
  revert st. induction evs as [|ev evs IH]; intros st Hst; [done|].
  cbn. by apply IH, step_keeps_input.
Qed.

(** X18.  Once the situation and goals form has been submitted, nothing
    that happens afterwards (logging out, another user signing in, a failed
    read) shows that form again: the flag and the submitted query stay. *)
Theorem input_form_is_shown_once (evs1 evs2 : list Event) (q : UserInputPage.Query.t) :
  userInputComplete (run initial (evs1 ++ UserInputComplete q :: evs2)) = true
  /\ is_Some (queryData (run initial (evs1 ++ UserInputComplete q :: evs2)))
  /\ render (run initial (evs1 ++ UserInputComplete q :: evs2)) <> UserInputScreen.
Proof.
  unfold run. rewrite fold_left_app. cbn [fold_left].
  set (st := step _ (UserInputComplete q)).
  destruct (run_keeps_input evs2 st) as [Hc Hq]; [by split|].
  unfold run in Hc, Hq. split; [done|]. split; [done|].
  unfold render. rewrite Hc. repeat case_match; done.
Qed.

Lemma step_keeps_gate (st : State) (ev : Event) :
  (showButtons st = true -> canClick st = true) ->
  showButtons (step st ev) = true -> canClick (step st ev) = true.
Proof.
  intros Hg. destruct ev; cbn; try done.
  - destruct onAuthButton; [done|].
    destruct (canClick st && negb (showButtons st) && negb _) eqn:E; cbn; [|done].
    intros _. by apply andb_true_iff in E as [[? _]%andb_true_iff _].
  - by destruct signedOut.
  - destruct (showAccountMenu st); cbn; done.
  - destruct (showAccountMenu st && negb (isMenuClosing st)); cbn; done.
  - destruct (saved && _); cbn; done.
Qed.

Lemma run_keeps_gate (evs : list Event) (st : State) :
  (showButtons st = true -> canClick st = true) ->
  showButtons (run st evs) = true -> canClick (run st evs) = true.
Proof.
  revert st. induction evs as [|ev evs IH]; intros st Hst; [done|].
  cbn. by apply IH, step_keeps_gate.
Qed.

(** X19.  The sign-in buttons of the landing page are never shown before
    the timer of the opening animation has fired. *)
Theorem buttons_wait_for_animation (evs : list Event) :
  showButtons (run initial evs) = true -> canClick (run initial evs) = true.
Proof. by apply run_keeps_gate. Qed.

Lemma buttons_wait_for_animation_witness :
  canClick (run initial [CanClickTimer; ScreenClick false]) = true.
Proof.
  apply (buttons_wait_for_animation [CanClickTimer; ScreenClick false]). reflexivity.
Defined.

End Routing.

(** ** The city box of the profile form *)

Section CityBox.
Import VisualPage CitySearch.

(** X20.  A suggestion offered for a city query comes from a geocoder
    entry with an address that names a city, town or village; there are at
    most five, and none for a query of fewer than two UTF-16 code units,
    whatever the geocoder would answer. *)
Theorem city_suggestions_are_places (geocode : string -> option (list Item))
  (query : string) (s : Suggestion) :
  s ∈ fetchCitySuggestions geocode query ->
  (List.length (fetchCitySuggestions geocode query) <= 5)%nat
  /\ (2 <= utf16_length query)%nat
  /\ exists data item,
       geocode query = Some data /\ item ∈ data
       /\ names_a_place item = true /\ suggest item = Some s.
Proof.
  unfold fetchCitySuggestions.
  destruct (String.eqb query "" || (utf16_length query <? 2)%nat) eqn:Eq.
  { by intros ?%elem_of_nil. }
  apply orb_false_iff in Eq as [_ Hlen%Nat.ltb_ge].
  destruct (geocode query) as [data|]; [|by intros ?%elem_of_nil].
  intros Hs. split; [unfold slice5; rewrite length_take; lia|]. split; [done|].
  apply subseteq_take, list_elem_of_omap in Hs as (item & Hin & Hsug).
  apply list_elem_of_In, filter_In in Hin as [Hin Hp].
  exists data, item. by rewrite list_elem_of_In.
Qed.

Lemma city_suggestions_are_places_witness :
  (List.length (fetchCitySuggestions sample_geocode "Van") <= 5)%nat
  /\ (2 <= utf16_length "Van")%nat
  /\ exists data item,
       sample_geocode "Van" = Some data /\ item ∈ data
       /\ names_a_place item = true /\ suggest item = Some vancouver_suggestion.
Proof.
  apply (city_suggestions_are_places sample_geocode "Van" vancouver_suggestion).
  vm_compute. left.
Defined.

(** A query of one accented letter, two bytes in UTF-8, is one code unit
    long and is not sent; an emoji, one character, is two code units long
    and is. *)
Example one_letter_query_is_not_sent :
  fetchCitySuggestions sample_geocode "é" = []
  /\ utf16_length "é" = 1%nat
  /\ utf16_length "🏠" = 2%nat
  /\ fetchCitySuggestions sample_geocode "🏠" = [vancouver_suggestion].
Proof. repeat split. Qed.

(** X21.  Text typed into the city box is never submitted as it stands:
    after a key stroke in the box the form refuses to submit, whatever the
    other answers are. *)
Theorem typed_city_is_not_submitted (st : Form) (value : string) :
  CitySearch.handleSubmit (handleCityInputChange st value)
  = ProfileSetup.Alert "Please complete all fields before submitting.".
Proof.
  unfold CitySearch.handleSubmit, ProfileSetup.handleSubmit.
  destruct (ProfileSetup.allFilled _) eqn:E; [|done].
  pose proof (proj1 (allFilled_true _) E "location") as Hloc.
  unfold ProfileSetup.field, handleCityInputChange in Hloc. cbn in Hloc.
  rewrite lookup_insert_eq in Hloc. cbn in Hloc.
  discriminate Hloc. unfold Firebase.savedKeys. right. left.
Qed.

(** X22.  When the user has typed in the city box and leaves it while
    suggestions are listed, the first suggestion becomes the location; with
    the six other answers given the form then submits, with that location
    and the other answers unchanged. *)
Theorem first_suggestion_is_submitted (st : Form) (value : string)
  (first : Suggestion) (rest : list Suggestion) :
  value <> "" ->
  citySuggestions st = first :: rest ->
  displayName first <> "" ->
  (forall k, k ∈ Firebase.savedKeys -> k <> "location" ->
             truthy (ProfileSetup.field (profileData st) k) = true) ->
  exists submitted,
    CitySearch.handleSubmit (autoSelectFirstCity (handleCityInputChange st value))
    = ProfileSetup.Completed submitted
    /\ submitted !! "location" = Some (JsString (displayName first))
    /\ (forall k, k <> "location" -> submitted !! k = profileData st !! k).
Proof.
  intros Hv Hsug Hname Hall.
  assert (autoSelectFirstCity (handleCityInputChange st value)
          = handleCitySelect (handleCityInputChange st value) first) as ->.
  { unfold autoSelectFirstCity.
    cbn [citySuggestions cityInput citySelected handleCityInputChange].
    rewrite Hsug. apply String.eqb_neq in Hv. by rewrite Hv. }
  unfold CitySearch.handleSubmit, ProfileSetup.handleSubmit.
  cbn [profileData handleCitySelect handleCityInputChange].
  eexists. split; [|split].
  - rewrite (proj2 (allFilled_true _)); [reflexivity|].
    intros k Hk. unfold ProfileSetup.field.
    destruct (decide (k = "location")) as [->|Hne].
    + rewrite lookup_insert_eq. cbn. by apply String.eqb_neq in Hname as ->.
    + rewrite !lookup_insert_ne by done. by apply Hall.
  - by rewrite lookup_insert_eq.
  - intros k Hne. by rewrite !lookup_insert_ne.
Qed.

Lemma first_suggestion_is_submitted_witness :
  exists submitted,
    CitySearch.handleSubmit (autoSelectFirstCity (handleCityInputChange sample_form "Van"))
    = ProfileSetup.Completed submitted
    /\ submitted !! "location" = Some (JsString (displayName vancouver_suggestion))
    /\ (forall k, k <> "location" -> submitted !! k = profileData sample_form !! k).
Proof.
  apply (first_suggestion_is_submitted sample_form "Van" vancouver_suggestion []).
  - discriminate.
  - reflexivity.
  - discriminate.
  - intros k Hk Hne. unfold Firebase.savedKeys in Hk.
    repeat (apply elem_of_cons in Hk as [->|Hk]; [first [done | reflexivity]|]).
    by apply elem_of_nil in Hk.
Defined.

End CityBox.
